(** * Rock-paper-scissors-lizard-spock: the adaptive predictor of [rpsls.py]

    A shallow embedding of [src/rpsls.py] and the properties its
    specification states about it.

    - Python values: [str] moves range over the five entries of
      [RPSLSState.MOVES] (type [Move]); [int] is [Z] where the source does
      arithmetic on it and [nat] for lengths and counts; [float] is the
      kernel's binary64 ([PrimFloat]); [Optional] is [option]; [dict] is
      [gmap]; [Counter] is an association list in insertion order.
    - Exceptions: a computation that can raise returns [result].
    - [random]: the module's generator is an explicit stream of draws that
      every call to [random.choice] consumes from. *)

From Stdlib Require Import ZArith List String Ascii Lia Bool PrimFloat.
From stdpp Require Import base option list relations gmap strings.
Import ListNotations.

Local Open Scope nat_scope.

(** ** Python builtins *)

Module Py.

Inductive exn : Type :=
| IndexError
| KeyError
| ValueError
| ZeroDivisionError.

Inductive result (A : Type) : Type :=
| Ok (a : A)
| Raise (e : exn).
Global Arguments Ok {A} a.
Global Arguments Raise {A} e.

Global Instance result_ret : MRet result := fun _ a => Ok a.
Global Instance result_bind : MBind result := fun _ _ f m =>
  match m with
  | Ok a => f a
  | Raise e => Raise e
  end.

(** [len(l)] as a Python [int]. *)
Definition len {A} (l : list A) : Z := Z.of_nat (length l).

(** [range(n)]: empty when [n <= 0]. *)
Definition range (n : Z) : list Z := map Z.of_nat (seq 0 (Z.to_nat n)).

(** [l[i]]: a negative index counts from the end; out of range raises. *)
Definition getitem {A} (l : list A) (i : Z) : result A :=
  let j := if (i <? 0)%Z then (i + len l)%Z else i in
  if (j <? 0)%Z then Raise IndexError
  else match l !! Z.to_nat j with
       | Some x => Ok x
       | None => Raise IndexError
       end.

(** How a slice bound is clipped to [0 .. len]. *)
Definition clip (n i : Z) : Z :=
  if (i <? 0)%Z then Z.max 0 (i + n) else Z.min i n.

(** [l[lo:hi]] with step 1; an omitted bound is [None]. *)
Definition slice {A} (l : list A) (lo hi : option Z) : list A :=
  let n := len l in
  let start := match lo with Some i => clip n i | None => 0%Z end in
  let stop := match hi with Some i => clip n i | None => n end in
  firstn (Z.to_nat (stop - start)) (skipn (Z.to_nat start) l).

(** [l.index(x)]. *)
Fixpoint index `{EqDecision A} (l : list A) (x : A) : result Z :=
  match l with
  | [] => Raise ValueError
  | y :: l' => if decide (y = x) then Ok 0%Z
               else i ← index l' x; Ok (i + 1)%Z
  end.

(** [sep.join(l)] for the empty separator. *)
Definition join (l : list string) : string := String.concat EmptyString l.

(** The exact conversion of a Python [int] below [2^53] to [float]. *)
Fixpoint float_of_pos (p : positive) : float :=
  match p with
  | xH => 1%float
  | xO q => PrimFloat.mul 2%float (float_of_pos q)
  | xI q => PrimFloat.add (PrimFloat.mul 2%float (float_of_pos q)) 1%float
  end.

Definition float_of_int (z : Z) : float :=
  match z with
  | Z0 => 0%float
  | Zpos p => float_of_pos p
  | Zneg p => PrimFloat.opp (float_of_pos p)
  end.

(** [a / b] on ints: true division, correctly rounded. *)
Definition truediv (a b : Z) : result float :=
  if (b =? 0)%Z then Raise ZeroDivisionError
  else Ok (PrimFloat.div (float_of_int a) (float_of_int b)).

(** *** [collections.Counter] *)

Section Counter.
Context `{EqDecision A}.

(** A counter is a dict: keys in first-insertion order. *)
Definition counter : Type := list (A * nat).

Fixpoint counter_add (c : counter) (x : A) : counter :=
  match c with
  | [] => [(x, 1)]
  | (k, n) :: c' =>
      if decide (k = x) then (k, S n) :: c'
      else (k, n) :: counter_add c' x
  end.

(** [Counter(l)]. *)
Definition Counter (l : list A) : counter := fold_left counter_add l [].

(** [max(it, key=itemgetter(1))] started at [best]: the first item
    with the largest count. *)
Fixpoint max_item (best : A * nat) (rest : counter) : A * nat :=
  match rest with
  | [] => best
  | item :: rest' =>
      if snd best <? snd item then max_item item rest'
      else max_item best rest'
  end.

(** [c.most_common(1)], which is [heapq.nlargest(1, c.items(), key)]. *)
Definition most_common_1 (c : counter) : counter :=
  match c with
  | [] => []
  | item :: rest => [max_item item rest]
  end.

(** [c.most_common(1)[0][0]]. *)
Definition most_common_key (c : counter) : result A :=
  item ← getitem (most_common_1 c) 0; Ok (fst item).
End Counter.

(** *** [collections.deque] with [maxlen] *)

(** [d.append(x)]: the oldest entry leaves once the bound is passed. *)
Definition deque_append {A} (maxlen : nat) (d : list A) (x : A) : list A :=
  let d' := d ++ [x] in
  if maxlen <? length d' then skipn 1 d' else d'.

(** *** [random] *)

(** The generator: the stream of raw draws still to be handed out. *)
Definition RandomState : Type := nat → nat.

Definition advance (r : RandomState) : RandomState := fun n => r (S n).

(** [random.choice(l)]: [l[randbelow(len(l))]], [IndexError] on [[]]. *)
Definition choice {A} (l : list A) (r : RandomState)
  : result (A * RandomState) :=
  match l !! (r 0 mod length l) with
  | Some x => Ok (x, advance r)
  | None => Raise IndexError
  end.

End Py.

Import Py.

(** ** [class RPSLSState] *)

Inductive Move : Type := rock | paper | scissors | lizard | spock.

Global Instance Move_eq_dec : EqDecision Move.
Proof. solve_decision. Defined.

(** The Python string of each move. *)
Definition move_name (m : Move) : string :=
  match m with
  | rock => "rock"
  | paper => "paper"
  | scissors => "scissors"
  | lizard => "lizard"
  | spock => "spock"
  end.

Definition MOVES : list Move := [rock; paper; scissors; lizard; spock].

Definition WINS_AGAINST (m : Move) : list Move :=
  match m with
  | rock => [scissors; lizard]
  | paper => [rock; spock]
  | scissors => [paper; lizard]
  | lizard => [paper; spock]
  | spock => [rock; scissors]
  end.

Record RPSLSState : Type := mkRPSLSState {
  player_history : list Move;
  opponent_history : list Move
}.

(** [RPSLSState.__init__]. *)
Definition RPSLSState_init : RPSLSState :=
  {| player_history := []; opponent_history := [] |}.

Definition get_result (move1 move2 : Move) : Z :=
  if decide (move1 = move2) then 0%Z
  else if bool_decide (move2 ∈ WINS_AGAINST move1) then 1%Z
  else (-1)%Z.

(** ** [class PatternDetector] *)

Record PatternDetector : Type := mkPatternDetector {
  window_size : Z;
  frequency_threshold : float;
  (** [deque(maxlen=50)] *)
  move_history : list Move;
  (** [Dict[str, str]] *)
  pattern_cache : gmap string Move
}.

(** [PatternDetector.__init__(window_size, frequency_threshold)]. *)
Definition PatternDetector_init (window_size : Z) (frequency_threshold : float)
  : PatternDetector :=
  {| window_size := window_size;
     frequency_threshold := frequency_threshold;
     move_history := [];
     pattern_cache := ∅ |}.

(** The defaults of [__init__]: [window_size = 3],
    [frequency_threshold = 0.3], the literal being the binary64 number
    nearest to three tenths. *)
Definition default_window_size : Z := 3.
Definition default_frequency_threshold : float := 0x1.3333333333333p-2%float.

Definition PatternDetector_default : PatternDetector :=
  PatternDetector_init default_window_size default_frequency_threshold.

Definition set_move_history (h : list Move) (self : PatternDetector)
  : PatternDetector :=
  {| window_size := window_size self;
     frequency_threshold := frequency_threshold self;
     move_history := h;
     pattern_cache := pattern_cache self |}.

Definition set_pattern_cache (c : gmap string Move) (self : PatternDetector)
  : PatternDetector :=
  {| window_size := window_size self;
     frequency_threshold := frequency_threshold self;
     move_history := move_history self;
     pattern_cache := c |}.

Definition add_move (move : Move) (self : PatternDetector) : PatternDetector :=
  set_move_history (deque_append 50 (move_history self) move) self.

(** [''.join(recent_moves)]. *)
Definition pattern_key_of (recent_moves : list Move) : string :=
  join (map move_name recent_moves).

(** One iteration of the scan of [get_pattern_prediction] (lines 56-58),
    with [pattern_occurrences] as the accumulator. *)
Definition scan_step (self : PatternDetector) (recent_moves : list Move)
    (pattern_occurrences : list Move) (i : Z) : result (list Move) :=
  let window := slice (move_history self) (Some i)
                      (Some (i + window_size self)%Z) in
  if bool_decide (window = recent_moves)
     && (i + window_size self <? len (move_history self))%Z
  then
    follower ← getitem (move_history self) (i + window_size self)%Z;
    Ok (pattern_occurrences ++ [follower])
  else Ok pattern_occurrences.

(** A [for] loop whose body can raise. *)
Fixpoint for_each {A B} (body : B → A → result B) (l : list A) (acc : B)
  : result B :=
  match l with
  | [] => Ok acc
  | x :: l' => acc' ← body acc x; for_each body l' acc'
  end.

(** Returns the prediction and the detector as the call leaves it. *)
Definition get_pattern_prediction (self : PatternDetector)
  : result (option Move * PatternDetector) :=
  if (len (move_history self) <? window_size self)%Z then Ok (None, self)
  else
    let recent_moves :=
      slice (move_history self) (Some (- window_size self)%Z) None in
    let pattern_key := pattern_key_of recent_moves in
    match pattern_cache self !! pattern_key with
    | Some cached => Ok (Some cached, self)
    | None =>
        pattern_occurrences ←
          for_each (scan_step self recent_moves)
                   (range (len (move_history self) - window_size self)) [];
        match pattern_occurrences with
        | [] => Ok (None, self)
        | _ :: _ =>
            prediction ← most_common_key (Counter pattern_occurrences);
            Ok (Some prediction,
                set_pattern_cache
                  (<[pattern_key := prediction]> (pattern_cache self)) self)
        end
    end.

(** The loop of [get_frequency_bias] over [move_counts.items()]. *)
Fixpoint frequency_scan (threshold : float) (total_moves : Z)
    (items : list (Move * nat)) : result (option Move) :=
  match items with
  | [] => Ok None
  | (move, count) :: items' =>
      share ← truediv (Z.of_nat count) total_moves;
      if PrimFloat.leb threshold share then Ok (Some move)
      else frequency_scan threshold total_moves items'
  end.

Definition get_frequency_bias (self : PatternDetector) : result (option Move) :=
  match move_history self with
  | [] => Ok None
  | _ :: _ =>
      let move_counts := Counter (move_history self) in
      let total_moves := len (move_history self) in
      frequency_scan (frequency_threshold self) total_moves move_counts
  end.

(** ** [class RPSLSGame] *)

Record RPSLSGame : Type := mkRPSLSGame {
  state : RPSLSState;
  pattern_detector : PatternDetector
}.

(** [RPSLSGame.__init__]. *)
Definition RPSLSGame_init : RPSLSGame :=
  {| state := RPSLSState_init; pattern_detector := PatternDetector_default |}.

(** What a method of the game can read and change: the game object and the
    generator of the [random] module. *)
Record World : Type := mkWorld {
  rng : RandomState;
  game : RPSLSGame
}.

Definition M (A : Type) : Type := World → result (A * World).

Global Instance M_ret : MRet M := fun _ a w => Ok (a, w).
Global Instance M_bind : MBind M := fun _ _ f m w =>
  match m w with
  | Ok (a, w') => f a w'
  | Raise e => Raise e
  end.

(** A computation that only raises or returns. *)
Definition lift {A} (r : result A) : M A := fun w =>
  match r with
  | Ok a => Ok (a, w)
  | Raise e => Raise e
  end.

Definition random_choice {A} (l : list A) : M A := fun w =>
  match choice l (rng w) with
  | Ok (x, r) => Ok (x, {| rng := r; game := game w |})
  | Raise e => Raise e
  end.

Definition read {A} (f : RPSLSGame → A) : M A := fun w => Ok (f (game w), w).

Definition set_detector (d : PatternDetector) (w : World) : World :=
  {| rng := rng w;
     game := {| state := state (game w); pattern_detector := d |} |}.

Definition set_state (s : RPSLSState) (w : World) : World :=
  {| rng := rng w;
     game := {| state := s; pattern_detector := pattern_detector (game w) |} |}.

Definition write (f : World → World) : M unit := fun w => Ok (tt, f w).

(** A call of a detector method that may change the detector. *)
Definition on_detector {A}
    (method : PatternDetector → result (A * PatternDetector)) : M A := fun w =>
  match method (pattern_detector (game w)) with
  | Ok (a, d) => Ok (a, set_detector d w)
  | Raise e => Raise e
  end.

(** Returns a move that beats the given move. *)
Definition possible_counters (move : Move) : list Move :=
  filter (fun m => move ∈ WINS_AGAINST m) MOVES.

Definition get_counter_move (move : Move) : M Move :=
  random_choice (possible_counters move).

(** [if pattern_prediction:] and [if frequency_bias:] test an
    [Optional[str]]; no move is the empty string, so they test for [None]. *)
Definition get_ai_move : M Move :=
  pattern_prediction ← on_detector get_pattern_prediction;
  match pattern_prediction with
  | Some prediction => get_counter_move prediction
  | None =>
      frequency_bias ←
        (d ← read pattern_detector; lift (get_frequency_bias d));
      match frequency_bias with
      | Some bias => get_counter_move bias
      | None =>
          history ← read (fun g => opponent_history (state g));
          match history with
          | _ :: _ =>
              let recent_moves := Counter (slice history (Some (-5)%Z) None) in
              most_common ← lift (most_common_key recent_moves);
              get_counter_move most_common
          | [] => random_choice MOVES
          end
      end
  end.

(** The opponent's move of [play_round] (lines 114-134). *)
Definition opponent_move_source (opponent_strategy : string)
    (custom_moves : option (list Move)) (round_number : Z) : M Move :=
  if String.eqb opponent_strategy "random" then random_choice MOVES
  else if String.eqb opponent_strategy "repeating" then
    history ← read (fun g => opponent_history (state g));
    match history with
    | _ :: _ => lift (getitem history (-1)%Z)
    | [] => random_choice MOVES
    end
  else if String.eqb opponent_strategy "cycling" then
    history ← read (fun g => opponent_history (state g));
    idx ← match history with
          | _ :: _ =>
              last_move ← lift (getitem history (-1)%Z);
              i ← lift (index MOVES last_move);
              mret ((i + 1) `mod` len MOVES)%Z
          | [] => mret 0%Z
          end;
    lift (getitem MOVES idx)
  else if String.eqb opponent_strategy "custom" then
    match custom_moves with
    | Some ((_ :: _) as moves) =>
        if (round_number <? len moves)%Z then lift (getitem moves round_number)
        else random_choice MOVES
    | Some [] | None => random_choice MOVES
    end
  else random_choice MOVES.

Definition play_round (opponent_strategy : string)
    (custom_moves : option (list Move)) (round_number : Z)
  : M (Move * Move * Z) :=
  opponent_move ← opponent_move_source opponent_strategy custom_moves
                                       round_number;
  _ ← write (fun w =>
         set_detector (add_move opponent_move (pattern_detector (game w))) w);
  ai_move ← get_ai_move;
  _ ← write (fun w =>
         set_state
           {| player_history := player_history (state (game w)) ++ [ai_move];
              opponent_history :=
                opponent_history (state (game w)) ++ [opponent_move] |}
           w);
  mret (ai_move, opponent_move, get_result ai_move opponent_move).

(** ** [demonstrate_game] *)

(** The game loop of [demonstrate_game]; printing and plotting left out.
    Returns [results], with the game in the final world. *)
Definition demonstrate_game (rounds : Z) (opponent_strategy : string)
    (custom_moves : option (list Move)) (r : RandomState)
  : result (list Z * World) :=
  for_each
    (fun '(results, w) i =>
       '(_, _, res, w') ← play_round opponent_strategy custom_moves i w;
       Ok (results ++ [res], w'))
    (range rounds)
    ([], {| rng := r; game := RPSLSGame_init |}).

(** ** Vocabulary of the specification *)

Section Frequency.
Context `{EqDecision A}.

(** How often [x] occurs in [l]. *)
Fixpoint occurrences (x : A) (l : list A) : nat :=
  match l with
  | [] => 0
  | y :: l' => (if decide (y = x) then 1 else 0) + occurrences x l'
  end.

(** Where [x] is first encountered in [l] ([length l] if nowhere). *)
Fixpoint first_index (x : A) (l : list A) : nat :=
  match l with
  | [] => 0
  | y :: l' => if decide (y = x) then 0 else S (first_index x l')
  end.

(** "the most frequent one (ties broken by first-encountered order)". *)
Definition first_most_frequent (m : A) (l : list A) : Prop :=
  m ∈ l ∧
  ∀ x, occurrences x l ≤ occurrences m l ∧
       (occurrences x l = occurrences m l → first_index m l ≤ first_index x l).

(** The distinct entries of [l] in the order they are first encountered. *)
Definition first_seen (l : list A) : list A :=
  fold_left (fun seen x => if decide (x ∈ seen) then seen else seen ++ [x])
            l [].

End Frequency.

(** "its last n entries" (all of them if there are fewer). *)
Definition last_entries {A} (n : nat) (l : list A) : list A :=
  skipn (length l - n) l.

(** The followers Tier 1 collects: for every position of the window where
    the last [w] moves occur again and another move follows, that move. *)
Definition followers (w : nat) (l : list Move) : list Move :=
  flat_map
    (fun i =>
       if decide (take w (drop i l) = last_entries w l)
       then option_list (l !! (i + w))
       else [])
    (seq 0 (length l)).

(** The tiers of the predictor. *)
Inductive Tier : Type :=
| PatternMatch
| FrequencyBias
| ShortWindowMajority
| Fallback.

(** The tier that decides [get_ai_move] in a game: the first with a
    prediction. *)
Definition tier_fired (g : RPSLSGame) : result Tier :=
  '(pattern_prediction, d) ← get_pattern_prediction (pattern_detector g);
  match pattern_prediction with
  | Some _ => Ok PatternMatch
  | None =>
      frequency_bias ← get_frequency_bias d;
      match frequency_bias with
      | Some _ => Ok FrequencyBias
      | None =>
          match opponent_history (state g) with
          | _ :: _ => Ok ShortWindowMajority
          | [] => Ok Fallback
          end
      end
  end.

(** A fresh game, whatever the generator holds. *)
Definition new_game (r : RandomState) : World :=
  {| rng := r; game := RPSLSGame_init |}.

(** One more round of a game; the generator may have been used by others
    in between. *)
Definition round_step (w w' : World) : Prop :=
  ∃ r opponent_strategy custom_moves round_number out,
    play_round opponent_strategy custom_moves round_number
               {| rng := r; game := game w |} = Ok (out, w').

(** The worlds a game goes through in its lifetime. *)
Definition reachable (w : World) : Prop :=
  ∃ r, rtc round_step (new_game r) w.

(** The world in which [play_round] calls [get_ai_move], the opponent
    having chosen [opponent_move]. *)
Definition at_prediction (opponent_move : Move) (w : World) : World :=
  set_detector (add_move opponent_move (pattern_detector (game w))) w.

(** [n] calls of [get_pattern_prediction] in a row: what each returned. *)
Fixpoint repeated_predictions (n : nat) (self : PatternDetector)
  : result (list (option Move) * PatternDetector) :=
  match n with
  | 0 => Ok ([], self)
  | S n' =>
      '(p, self') ← get_pattern_prediction self;
      '(ps, self'') ← repeated_predictions n' self';
      Ok (p :: ps, self'')
  end.

(** "a beats b": [b] is in the win-set of [a]. *)
Definition beats (a b : Move) : Prop := b ∈ WINS_AGAINST a.

(** The strategy names [play_round] knows. *)
Definition recognized (opponent_strategy : string) : Prop :=
  opponent_strategy ∈ ["random"; "repeating"; "cycling"; "custom"]%string.

(** What the scan appends at position [i], for a window of [w] moves. *)
Definition follower_at (l recent : list Move) (w i : nat) : list Move :=
  if decide (take w (drop i l) = recent) then option_list (l !! (i + w))
  else [].

(** What a call may change in the detector: nothing but new cache keys. *)
Definition detector_extends (d d' : PatternDetector) : Prop :=
  window_size d' = window_size d ∧
  frequency_threshold d' = frequency_threshold d ∧
  move_history d' = move_history d ∧
  pattern_cache d ⊆ pattern_cache d'.

(** A window whose last three moves were seen before, followed by [rock]. *)
Definition repeating_detector : PatternDetector :=
  set_move_history [rock; paper; scissors; rock; paper; scissors]
                   PatternDetector_default.

(** A detector made with [window_size = 0]. *)
Definition zero_window_detector : PatternDetector :=
  set_move_history [rock; rock]
                   (PatternDetector_init 0 default_frequency_threshold).

(** The test [count / total_moves >= threshold] of [get_frequency_bias]. *)
Definition share_reaches (threshold : float) (count total : nat) : bool :=
  PrimFloat.leb threshold
    (PrimFloat.div (float_of_int (Z.of_nat count))
                   (float_of_int (Z.of_nat total))).

(** Whether a move's share of a window is at least three tenths, in exact
    arithmetic. *)
Definition three_tenths (l : list Move) (m : Move) : bool :=
  3 * length l <=? 10 * occurrences m l.

(** For every count in every window the deque can hold, the float test
    against the default threshold agrees with exact arithmetic. *)
Definition share_table_exact : bool :=
  forallb
    (fun total =>
       forallb
         (fun count =>
            Bool.eqb (share_reaches default_frequency_threshold count total)
                     (3 * total <=? 10 * count))
         (seq 0 (S total)))
    (seq 1 50).

(** A window of 10 moves with 4 [rock], in which [paper] comes first and
    has a share of 0.3. *)
Definition paper_first_detector : PatternDetector :=
  set_move_history
    [paper; paper; paper; rock; rock; rock; rock; spock; lizard; scissors]
    PatternDetector_default.

(** A window of 10 moves with 4 [rock] that starts with [rock]. *)
Definition rock_first_detector : PatternDetector :=
  set_move_history
    [rock; paper; paper; rock; scissors; rock; rock; spock; lizard; scissors]
    PatternDetector_default.

(** What holds of a game throughout its lifetime: the detector keeps its
    defaults, the window is the last 50 moves of the opponent, and nothing
    is cached before the window holds more than 3 moves. *)
Definition game_invariant (g : RPSLSGame) : Prop :=
  window_size (pattern_detector g) = default_window_size ∧
  frequency_threshold (pattern_detector g) = default_frequency_threshold ∧
  move_history (pattern_detector g)
  = last_entries 50 (opponent_history (state g)) ∧
  (length (move_history (pattern_detector g)) ≤ 3 →
   pattern_cache (pattern_detector g) = ∅) ∧
  length (player_history (state g)) = length (opponent_history (state g)).

(** The cache key [get_pattern_prediction] looks up (lines 46-47). *)
Definition current_key (self : PatternDetector) : string :=
  pattern_key_of
    (slice (move_history self) (Some (- window_size self)%Z) None).

(** The position in [MOVES] the cycling opponent plays after [history]:
    0 at first, then one past the position of its last move, modulo 5. *)
Definition cycle_position (history : list Move) : nat :=
  match last history with
  | None => 0
  | Some m => (first_index m MOVES + 1) mod 5
  end.

(** A detector whose cache holds a prediction for its last three moves that
    a scan would not make. *)
Definition cached_detector : PatternDetector :=
  set_pattern_cache
    (<["rockpaperscissors"%string := spock]> ∅)
    (set_move_history [rock; paper; scissors; rock; paper; scissors]
                      PatternDetector_default).

(** The first [n] moves of the cycle through [MOVES]: move number [k] is
    the entry of [MOVES] at position [k] modulo 5. *)
Definition cycle_moves (n : nat) : list Move :=
  map (fun k => nth (k mod 5) MOVES rock) (seq 0 n).

(** ** The reporting functions *)

Section CounterLookup.
Context `{EqDecision A}.

(** [counts[key]]: a [Counter] gives 0 for a key it does not hold. *)
Fixpoint counter_get (c : list (A * nat)) (key : A) : nat :=
  match c with
  | [] => 0
  | (k, n) :: c' => if decide (k = key) then n else counter_get c' key
  end.

End CounterLookup.

(** The loop of [plot_cumulative_win_rate] (lines 151-155) from round [i]
    on, with [wins] and [win_rates] as they stand. *)
Fixpoint win_rate_loop (results : list Z) (i wins : Z) (win_rates : list float)
  : result (list float) :=
  match results with
  | [] => Ok win_rates
  | res :: results' =>
      let wins := if (res =? 1)%Z then (wins + 1)%Z else wins in
      win_rate ← truediv wins (i + 1);
      win_rate_loop results' (i + 1) wins (win_rates ++ [win_rate])
  end.

(** [plot_cumulative_win_rate]: the list [win_rates] that is plotted; the
    calls of [plt] are left out. *)
Definition plot_cumulative_win_rate (results : list Z) : result (list float) :=
  win_rate_loop results 0 0 [].

(** [plot_result_distribution]: the list [values] that is plotted, for the
    labels Wins, Draws, Losses; the calls of [plt] are left out. *)
Definition plot_result_distribution (results : list Z) : list nat :=
  let counts := Counter results in
  [counter_get counts 1%Z; counter_get counts 0%Z; counter_get counts (-1)%Z].

(** The final stats of [demonstrate_game] (lines 202-204):
    [results.count(1)], [results.count(0)], [results.count(-1)]. *)
Definition final_stats (results : list Z) : nat * nat * nat :=
  (occurrences 1%Z results, occurrences 0%Z results,
   occurrences (-1)%Z results).

(** The three outcomes. *)
Definition outcome (res : Z) : Prop := res ∈ [1; 0; -1]%Z.

(** A detector made with a negative window size. *)
Definition negative_window_detector : PatternDetector :=
  set_move_history [rock]
                   (PatternDetector_init (-2) default_frequency_threshold).

(** A detector whose window is full. *)
Definition full_window_detector : PatternDetector :=
  set_move_history (replicate 50 rock) PatternDetector_default.

(** Every cached prediction is a move the opponent has played. *)
Definition cache_sound (g : RPSLSGame) : Prop :=
  ∀ key v, pattern_cache (pattern_detector g) !! key = Some v →
           v ∈ opponent_history (state g).

(** The stretch of [n] moves of the cycle through [MOVES] that starts at
    move number [a]. *)
Definition cycle_segment (a n : nat) : list Move :=
  map (fun k => nth (k mod 5) MOVES rock) (seq a n).

(** The move after [m] in the cycle through [MOVES]. *)
Definition successor (m : Move) : Move :=
  nth ((first_index m MOVES + 1) mod 5) MOVES rock.

(** Every cached prediction is the successor of the last of the three
    moves of its key. *)
Definition cache_successors (g : RPSLSGame) : Prop :=
  ∀ key v, pattern_cache (pattern_detector g) !! key = Some v →
           ∃ x y z, key = pattern_key_of [x; y; z] ∧ v = successor z.

(** The world after five rounds against the repeating opponent, the
    generator drawing 0 each time: the opponent has played [rock] five
    times, the predictor [paper], and the fourth round has cached [rock] as
    what follows three times [rock]. *)
Definition five_repeating_rounds : World :=
  {| rng := fun _ => 0;
     game :=
       {| state := {| player_history := replicate 5 paper;
                      opponent_history := replicate 5 rock |};
          pattern_detector :=
            set_pattern_cache
              (<["rockrockrock"%string := rock]> ∅)
              (set_move_history (replicate 5 rock)
                                PatternDetector_default) |} |}.

(** ** Tactics *)

(** Membership in a list that is written out. *)
Ltac in_list :=
  repeat first [apply list_elem_of_here | apply list_elem_of_further].

(** Its negation, when the entries are distinct constructors. *)
Ltac not_in_list :=
  let H := fresh "Hin" in
  intros H;
  repeat (apply elem_of_cons in H as [H|H]; [discriminate H|]);
  by apply elem_of_nil in H.

(** ** Python builtins: facts *)

Section CounterFacts.
Context `{EqDecision A}.
Implicit Types (l : list A) (x y m : A).

Lemma occurrences_app x l1 l2 :
  occurrences x (l1 ++ l2) = occurrences x l1 + occurrences x l2.
Proof. induction l1 as [|y l1 IH]; simpl; [done | rewrite IH; lia]. Qed.

Lemma occurrences_not_in x l : x ∉ l → occurrences x l = 0.
Proof.
  induction l as [|y l IH]; simpl; [done|].
  intros Hx. apply not_elem_of_cons in Hx as [Hne Hx].
  rewrite decide_False by done. by rewrite IH.
Qed.

Lemma occurrences_in x l : x ∈ l → 0 < occurrences x l.
Proof.
  induction l as [|y l IH]; [by intros ?%elem_of_nil|].
  simpl. destruct (decide (y = x)); [lia|].
  intros [?|Hin]%elem_of_cons; [congruence | specialize (IH Hin); lia].
Qed.

Lemma occurrences_le_length x l : occurrences x l ≤ length l.
Proof. induction l as [|y l IH]; simpl; [done | case_decide; lia]. Qed.

Lemma first_index_in x l : x ∈ l → first_index x l < length l.
Proof.
  induction l as [|y l IH]; [by intros ?%elem_of_nil|].
  simpl. destruct (decide (y = x)); [lia|].
  intros [?|Hin]%elem_of_cons; [congruence | specialize (IH Hin); lia].
Qed.

Lemma first_index_app_in x l1 l2 :
  x ∈ l1 → first_index x (l1 ++ l2) = first_index x l1.
Proof.
  induction l1 as [|y l1 IH]; [by intros ?%elem_of_nil|].
  simpl. destruct (decide (y = x)); [done|].
  intros [?|?]%elem_of_cons; [congruence | auto with f_equal].
Qed.

Lemma first_index_app_not_in x l1 l2 :
  x ∉ l1 → first_index x (l1 ++ l2) = length l1 + first_index x l2.
Proof.
  induction l1 as [|y l1 IH]; simpl; [done|].
  intros [Hne Hx]%not_elem_of_cons.
  rewrite decide_False by done. by rewrite IH.
Qed.

Lemma snoc_cases l : l = [] ∨ ∃ l' z, l = l' ++ [z].
Proof. induction l using rev_ind; eauto. Qed.

Lemma first_seen_snoc l x :
  first_seen (l ++ [x]) =
  if decide (x ∈ first_seen l) then first_seen l else first_seen l ++ [x].
Proof. unfold first_seen. by rewrite fold_left_app. Qed.

Lemma elem_of_first_seen x l : x ∈ first_seen l ↔ x ∈ l.
Proof.
  induction l as [|y l IH] using rev_ind; [done|].
  rewrite first_seen_snoc. case_decide as Hy.
  - rewrite elem_of_app, list_elem_of_singleton, <- IH.
    split; [tauto | intros [?| ->]; [done | done]].
  - rewrite !elem_of_app, IH. done.
Qed.

Lemma NoDup_first_seen l : NoDup (first_seen l).
Proof.
  induction l as [|y l IH] using rev_ind; [constructor|].
  rewrite first_seen_snoc. case_decide as Hy; [done|].
  apply NoDup_app. split_and!; [done | | apply NoDup_singleton].
  intros z Hz ->%list_elem_of_singleton. done.
Qed.

(** [first_seen] lists the entries by where they first occur. *)
Lemma first_seen_order l pre m post x :
  first_seen l = pre ++ m :: post → x ∈ post →
  first_index m l < first_index x l.
Proof.
  revert pre m post x.
  induction l as [|y l IH] using rev_ind; intros pre m post x Heq Hx.
  - by destruct pre.
  - rewrite first_seen_snoc in Heq. case_decide as Hy.
    + assert (m ∈ l).
      { apply elem_of_first_seen. rewrite Heq, elem_of_app, elem_of_cons. auto. }
      assert (x ∈ l).
      { apply elem_of_first_seen. rewrite Heq, elem_of_app, elem_of_cons. auto. }
      rewrite !first_index_app_in by done. eauto.
    + destruct (snoc_cases post) as [->|(post' & z & ->)];
        [by apply elem_of_nil in Hx|].
      rewrite app_comm_cons, app_assoc in Heq.
      apply app_inj_tail in Heq as [Heq ->].
      assert (m ∈ l) as Hm.
      { apply elem_of_first_seen. rewrite Heq, elem_of_app, elem_of_cons. auto. }
      rewrite (first_index_app_in m) by done.
      apply elem_of_app in Hx as [Hx| ->%list_elem_of_singleton].
      * assert (x ∈ l).
        { apply elem_of_first_seen. rewrite Heq, elem_of_app, elem_of_cons. auto. }
        rewrite first_index_app_in by done. eauto.
      * rewrite elem_of_first_seen in Hy.
        rewrite first_index_app_not_in by done.
        pose proof (first_index_in m l Hm). lia.
Qed.

Lemma Counter_snoc l x : Counter (l ++ [x]) = counter_add (Counter l) x.
Proof. unfold Counter. by rewrite fold_left_app. Qed.

Lemma counter_add_map (g : A → nat) (ks : list A) x :
  NoDup ks →
  counter_add (map (fun k => (k, g k)) ks) x =
  if decide (x ∈ ks)
  then map (fun k => (k, if decide (k = x) then S (g k) else g k)) ks
  else map (fun k => (k, g k)) ks ++ [(x, 1)].
Proof.
  induction 1 as [|k ks Hk Hnd IH]; simpl; [done|].
  destruct (decide (k = x)) as [->|Hne].
  - rewrite decide_True by apply list_elem_of_here. f_equal.
    apply map_ext_in. intros k Hin%list_elem_of_In.
    rewrite decide_False; [done | congruence].
  - rewrite IH. destruct (decide (x ∈ ks)).
    + rewrite decide_True by (by apply list_elem_of_further). done.
    + rewrite decide_False
        by (apply not_elem_of_cons; split; [congruence | done]).
      done.
Qed.

(** [Counter(l)] holds each distinct entry once, in first-encountered
    order, with the number of its occurrences. *)
Lemma Counter_first_seen l :
  Counter l = map (fun k => (k, occurrences k l)) (first_seen l).
Proof.
  induction l as [|y l IH] using rev_ind; [done|].
  rewrite Counter_snoc, IH, counter_add_map by apply NoDup_first_seen.
  rewrite first_seen_snoc. destruct (decide (y ∈ first_seen l)) as [Hy|Hy].
  - apply map_ext. intros k. rewrite occurrences_app. simpl.
    destruct (decide (k = y)) as [->|?].
    + rewrite decide_True by done. f_equal. lia.
    + rewrite decide_False by congruence. f_equal. lia.
  - rewrite map_app. simpl. f_equal.
    + apply map_ext_in. intros k Hk%list_elem_of_In.
      rewrite occurrences_app. simpl.
      rewrite decide_False by (intros ->; done). f_equal. lia.
    + rewrite occurrences_app, occurrences_not_in
        by (by rewrite <- elem_of_first_seen).
      simpl. by rewrite decide_True.
Qed.

(** [max] keeps the first of the items with the largest count. *)
Lemma max_item_first (rest : list (A * nat)) :
  ∀ best pre mid,
    Forall (fun it => snd it < snd best) pre →
    Forall (fun it => snd it ≤ snd best) mid →
    ∃ pre' post,
      pre ++ best :: mid ++ rest = pre' ++ max_item best rest :: post ∧
      Forall (fun it => snd it < snd (max_item best rest)) pre' ∧
      Forall (fun it => snd it ≤ snd (max_item best rest)) post.
Proof.
  induction rest as [|item rest IH]; intros best pre mid Hpre Hmid; simpl.
  - exists pre, mid. by rewrite app_nil_r.
  - destruct (snd best <? snd item) eqn:Hlt.
    + apply Nat.ltb_lt in Hlt.
      destruct (IH item (pre ++ best :: mid) []) as (pre' & post & Heq & ?).
      * apply Forall_app. split; [|constructor; [done|]].
        -- eapply Forall_impl; [exact Hpre|]. simpl. lia.
        -- eapply Forall_impl; [exact Hmid|]. simpl. lia.
      * constructor.
      * exists pre', post. split; [|done].
        rewrite <- Heq. simpl. by rewrite <- !app_assoc.
    + apply Nat.ltb_ge in Hlt.
      destruct (IH best pre (mid ++ [item])) as (pre' & post & Heq & ?).
      * done.
      * apply Forall_app. split; [done|]. by repeat constructor.
      * exists pre', post. split; [|done].
        rewrite <- Heq. by rewrite <- !app_assoc.
Qed.

(** [Counter(l).most_common(1)[0][0]] is the most frequent entry of [l],
    ties broken by first-encountered order. *)
Lemma most_common_key_spec l :
  l ≠ [] →
  ∃ m, most_common_key (Counter l) = Ok m ∧ first_most_frequent m l.
Proof.
  intros Hl. rewrite Counter_first_seen.
  destruct (first_seen l) as [|k ks] eqn:Hseen.
  { destruct l as [|y l]; [done|].
    assert (y ∈ first_seen (y :: l)) as Hy
      by apply elem_of_first_seen, list_elem_of_here.
    rewrite Hseen in Hy. by apply elem_of_nil in Hy. }
  simpl.
  set (f := fun k0 => (k0, occurrences k0 l)).
  destruct (max_item_first (map f ks) (f k) [] []) as (pre & post & Heq & Hpre & Hpost);
    [constructor | constructor |].
  simpl in Heq. change (f k :: map f ks) with (map f (k :: ks)) in Heq.
  rewrite <- Hseen in Heq.
  apply map_eq_app in Heq as (ks1 & ks2' & Hks & <- & Heq).
  apply map_eq_cons in Heq as (m & ks2 & -> & Hm & <-).
  exists m. split.
  { unfold most_common_key. simpl. change (k, occurrences k l) with (f k).
    by rewrite <- Hm. }
  rewrite <- Hm in Hpre, Hpost. simpl in Hpre, Hpost.
  rewrite Forall_map in Hpre, Hpost. simpl in Hpre, Hpost.
  rewrite Forall_forall in Hpre, Hpost.
  assert (m ∈ l) as Hml.
  { apply elem_of_first_seen. rewrite Hks, elem_of_app, elem_of_cons. auto. }
  split; [done|]. intros x.
  destruct (decide (x ∈ l)) as [Hx|Hx].
  - apply elem_of_first_seen in Hx. rewrite Hks in Hx.
    apply elem_of_app in Hx as [Hx|[->|Hx]%elem_of_cons].
    + specialize (Hpre x Hx). lia.
    + done.
    + specialize (Hpost x Hx). split; [done|]. intros _.
      pose proof (first_seen_order l ks1 m ks2 x Hks Hx). lia.
  - rewrite (occurrences_not_in x) by done.
    pose proof (occurrences_in m l Hml). lia.
Qed.

End CounterFacts.

Section SliceFacts.
Context {A : Type}.
Implicit Types (l : list A) (i w : Z).

Lemma range_seq (n : nat) : range (Z.of_nat n) = map Z.of_nat (seq 0 n).
Proof. unfold range. by rewrite Nat2Z.id. Qed.

(** [l[i]] at an index in range is the [i]-th entry. *)
Lemma getitem_lookup l (n : nat) :
  getitem l (Z.of_nat n) =
  match l !! n with Some x => Ok x | None => Raise IndexError end.
Proof.
  unfold getitem.
  destruct (Z.ltb_spec (Z.of_nat n) 0); [lia|].
  destruct (Z.ltb_spec (Z.of_nat n) 0); [lia|].
  by rewrite Nat2Z.id.
Qed.

(** [l[-1]] is the last entry. *)
Lemma getitem_last l x : getitem (l ++ [x]) (-1) = Ok x.
Proof.
  unfold getitem, len. simpl (_ <? _)%Z. cbv iota.
  rewrite length_app. simpl.
  destruct (Z.ltb_spec (-1 + Z.of_nat (length l + 1)) 0); [lia|].
  replace (Z.to_nat (-1 + Z.of_nat (length l + 1))) with (length l) by lia.
  by rewrite list_lookup_middle.
Qed.

(** [l[-w:]] is the last [w] entries, for a positive [w]. *)
Lemma slice_last l w :
  (0 < w)%Z → slice l (Some (- w)%Z) None = last_entries (Z.to_nat w) l.
Proof.
  intros Hw. unfold slice, clip, last_entries, len.
  destruct (Z.ltb_spec (- w) 0); [|lia].
  replace (Z.to_nat (Z.max 0 (- w + Z.of_nat (length l))))
    with (length l - Z.to_nat w) by lia.
  apply take_ge. rewrite length_drop. lia.
Qed.

(** [l[i:i+w]] is the [w] entries from position [i]. *)
Lemma slice_window l (i w : nat) :
  i ≤ length l →
  slice l (Some (Z.of_nat i)) (Some (Z.of_nat i + Z.of_nat w)%Z) =
  take w (drop i l).
Proof.
  intros Hi. unfold slice, clip, len.
  destruct (Z.ltb_spec (Z.of_nat i) 0); [lia|].
  destruct (Z.ltb_spec (Z.of_nat i + Z.of_nat w) 0); [lia|].
  replace (Z.to_nat (Z.min (Z.of_nat i) (Z.of_nat (length l)))) with i by lia.
  destruct (decide (i + w ≤ length l)).
  - f_equal. lia.
  - rewrite !take_ge; [done | rewrite length_drop; lia..].
Qed.

(** A [for] loop whose body only appends never raises. *)
Lemma for_each_append {B} (body : list A → B → result (list A))
    (g : B → list A) (xs : list B) :
  (∀ acc x, x ∈ xs → body acc x = Ok (acc ++ g x)) →
  ∀ acc, for_each body xs acc = Ok (acc ++ flat_map g xs).
Proof.
  induction xs as [|x xs IH]; intros Hbody acc; simpl.
  - by rewrite app_nil_r.
  - rewrite Hbody by apply list_elem_of_here. simpl.
    rewrite IH by (intros; apply Hbody; by apply list_elem_of_further).
    by rewrite app_assoc.
Qed.

Lemma choice_spec l (r : RandomState) :
  l ≠ [] →
  ∃ x, l !! (r 0 mod length l) = Some x ∧ choice l r = Ok (x, advance r).
Proof.
  intros Hl. unfold choice.
  destruct (lookup_lt_is_Some_2 l (r 0 mod length l)) as [x Hx].
  { apply Nat.mod_upper_bound. by destruct l. }
  exists x. by rewrite Hx.
Qed.

End SliceFacts.

(** ** Move and outcome model *)

(** No move is the empty string: [if prediction:] tests for [None] only. *)
Lemma move_name_nonempty (m : Move) : move_name m ≠ EmptyString.
Proof. by destruct m. Qed.

Lemma MOVES_complete (m : Move) : m ∈ MOVES.
Proof. destruct m; unfold MOVES; in_list. Qed.

Lemma NoDup_MOVES : NoDup MOVES.
Proof.
  unfold MOVES. repeat (apply NoDup_cons; split; [not_in_list|]).
  apply NoDup_nil_2.
Qed.

Lemma get_result_win (a b : Move) : get_result a b = 1%Z ↔ beats a b.
Proof.
  unfold beats, get_result. destruct (decide (a = b)) as [->|Hne].
  - split; [done|]. destruct b; not_in_list.
  - case_bool_decide; by split.
Qed.

Lemma possible_counters_spec (m c : Move) :
  c ∈ possible_counters m ↔ beats c m.
Proof.
  unfold possible_counters, beats. rewrite list_elem_of_filter.
  pose proof (MOVES_complete c). tauto.
Qed.

Lemma possible_counters_nonempty (m : Move) : possible_counters m ≠ [].
Proof. by destruct m. Qed.

(** [get_counter_move] never raises: it draws one of the counters, which
    wins against the move. *)
Lemma get_counter_move_spec (m : Move) (w : World) :
  ∃ c, get_counter_move m w
       = Ok (c, {| rng := advance (rng w); game := game w |}) ∧
       c ∈ possible_counters m ∧ get_result c m = 1%Z.
Proof.
  unfold get_counter_move, random_choice.
  destruct (choice_spec (possible_counters m) (rng w)) as (c & Hc & ->);
    [apply possible_counters_nonempty|].
  exists c. split; [done|].
  apply list_elem_of_lookup_2 in Hc. split; [done|].
  by apply get_result_win, possible_counters_spec.
Qed.

(** C4. The win relation is a closed, self-consistent table: of two distinct
    moves exactly one beats the other, a move draws against itself, and
    [get_result a b] and [get_result b a] are never both a win (each is the
    opposite of the other). *)
Theorem win_relation_closed (a b : Move) :
  (a ≠ b → (beats a b ∧ ¬ beats b a) ∨ (beats b a ∧ ¬ beats a b)) ∧
  get_result a a = 0%Z ∧
  ¬ (get_result a b = 1%Z ∧ get_result b a = 1%Z) ∧
  get_result a b = (- get_result b a)%Z ∧
  (∀ c, beats a c → c ∈ MOVES).
Proof.
  split_and!.
  - rewrite <- !get_result_win.
    destruct a, b; intros Hne; try done; vm_compute; intuition congruence.
  - by destruct a.
  - by destruct a, b; intros [? ?].
  - by destruct a, b.
  - intros c _. apply MOVES_complete.
Qed.

(** C5. Every move has exactly two counter-moves, and each of them wins
    against it; [get_counter_move] returns one of the two. *)
Theorem counters_beat (m : Move) :
  length (possible_counters m) = 2 ∧
  NoDup (possible_counters m) ∧
  (∀ c, c ∈ possible_counters m ↔ m ∈ WINS_AGAINST c) ∧
  (∀ c, c ∈ possible_counters m → get_result c m = 1%Z) ∧
  (∀ w, ∃ c w', get_counter_move m w = Ok (c, w') ∧
                c ∈ possible_counters m ∧ get_result c m = 1%Z).
Proof.
  split_and!.
  - by destruct m.
  - apply NoDup_filter, NoDup_MOVES.
  - apply possible_counters_spec.
  - intros c Hc. by apply get_result_win, possible_counters_spec.
  - intros w. destruct (get_counter_move_spec m w) as (c & Hc & ? & ?).
    eauto 6.
Qed.

(** ** The pattern detector *)

Lemma flat_map_of_nat {B} (g : nat → list B) (s : list nat) :
  flat_map (fun z => g (Z.to_nat z)) (map Z.of_nat s) = flat_map g s.
Proof.
  induction s as [|i s IH]; simpl; [done|]. by rewrite Nat2Z.id, IH.
Qed.

Lemma flat_map_all_nil {B C} (g : B → list C) (s : list B) :
  (∀ x, x ∈ s → g x = []) → flat_map g s = [].
Proof.
  induction s as [|x s IH]; intros Hg; simpl; [done|].
  rewrite Hg, IH;
    [done | intros; apply Hg; by apply list_elem_of_further
     | apply list_elem_of_here].
Qed.

(** The scan of [get_pattern_prediction] never raises when the window size
    is not negative, and collects the followers position by position. *)
Lemma scan_collects (self : PatternDetector) (recent : list Move) :
  (0 ≤ window_size self)%Z →
  for_each (scan_step self recent)
           (range (len (move_history self) - window_size self)) [] =
  Ok (flat_map
        (follower_at (move_history self) recent (Z.to_nat (window_size self)))
        (seq 0 (length (move_history self) - Z.to_nat (window_size self)))).
Proof.
  intros Hw. set (l := move_history self). set (w := Z.to_nat (window_size self)).
  assert (window_size self = Z.of_nat w) as Hwz by lia.
  unfold len. destruct (decide (w ≤ length l)) as [Hle|Hgt].
  2:{ unfold range.
      replace (Z.to_nat (Z.of_nat (length l) - window_size self)) with 0 by lia.
      by replace (length l - w) with 0 by lia. }
  replace (Z.of_nat (length l) - window_size self)%Z
    with (Z.of_nat (length l - w)) by lia.
  rewrite range_seq.
  rewrite (for_each_append _ (fun z => follower_at l recent w (Z.to_nat z))).
  { simpl. by rewrite flat_map_of_nat. }
  intros acc z (i & -> & Hi%elem_of_seq)%list_elem_of_fmap.
  unfold scan_step, follower_at. fold l. rewrite Hwz, Nat2Z.id.
  rewrite slice_window by lia.
  unfold len. fold l.
  destruct (Z.ltb_spec (Z.of_nat i + Z.of_nat w) (Z.of_nat (length l))); [|lia].
  rewrite andb_true_r.
  destruct (decide (take w (drop i l) = recent)) as [Heq|Hne].
  - rewrite bool_decide_eq_true_2 by done.
    rewrite <- Nat2Z.inj_add, getitem_lookup.
    destruct (lookup_lt_is_Some_2 l (i + w)) as [x Hx]; [lia|].
    by rewrite Hx.
  - rewrite bool_decide_eq_false_2 by done. by rewrite app_nil_r.
Qed.

(** Past the last position that a move follows, nothing is collected. *)
Lemma followers_scan (w : nat) (l : list Move) :
  flat_map (follower_at l (last_entries w l) w) (seq 0 (length l - w)) =
  followers w l.
Proof.
  unfold followers.
  assert (seq 0 (length l) =
          seq 0 (length l - w) ++
          seq (0 + (length l - w)) (length l - (length l - w))) as ->.
  { rewrite <- seq_app. f_equal. lia. }
  rewrite flat_map_app. simpl.
  rewrite <- (app_nil_r (flat_map _ (seq 0 (length l - w)))) at 1.
  f_equal. symmetry. apply flat_map_all_nil.
  intros i [Hi _]%elem_of_seq.
  rewrite (lookup_ge_None_2 l (i + w)) by lia. simpl. by case_decide.
Qed.

(** [get_pattern_prediction] for a positive window size, in terms of the
    window's last moves and their followers. *)
Lemma get_pattern_prediction_eq (self : PatternDetector) :
  (0 < window_size self)%Z →
  let w := Z.to_nat (window_size self) in
  let l := move_history self in
  let key := pattern_key_of (last_entries w l) in
  get_pattern_prediction self =
  if length l <? w then Ok (None, self)
  else match pattern_cache self !! key with
       | Some cached => Ok (Some cached, self)
       | None =>
           match followers w l with
           | [] => Ok (None, self)
           | (_ :: _) as occ =>
               prediction ← most_common_key (Counter occ);
               Ok (Some prediction,
                   set_pattern_cache
                     (<[key := prediction]> (pattern_cache self)) self)
           end
       end.
Proof.
  intros Hw w l key. unfold get_pattern_prediction.
  fold l. unfold len.
  destruct (Z.ltb_spec (Z.of_nat (length l)) (window_size self));
    destruct (Nat.ltb_spec (length l) w); try lia; [done|].
  rewrite slice_last by done. fold w key.
  destruct (pattern_cache self !! key); [done|].
  pose proof (scan_collects self (last_entries w l)) as Hscan.
  unfold len in Hscan. fold l w in Hscan. rewrite Hscan by lia.
  rewrite followers_scan. simpl. by destruct (followers w l).
Qed.

Lemma detector_extends_refl (d : PatternDetector) : detector_extends d d.
Proof. by repeat split. Qed.

(** [get_pattern_prediction] never raises when the window size is not
    negative; it leaves the detector alone unless it predicts from a scan,
    and then only adds the key it missed. *)
Lemma get_pattern_prediction_ok (self : PatternDetector) :
  (0 ≤ window_size self)%Z →
  ∃ p self', get_pattern_prediction self = Ok (p, self') ∧
             detector_extends self self' ∧
             (p = None → self' = self).
Proof.
  intros Hw. unfold get_pattern_prediction.
  destruct (_ <? _)%Z; [by eauto using detector_extends_refl|].
  destruct (pattern_cache self !! _) as [v|] eqn:Hkey;
    [by eauto using detector_extends_refl|].
  rewrite scan_collects by done. simpl.
  destruct (flat_map _ _) as [|x occ] eqn:Hocc;
    [by eauto using detector_extends_refl|].
  destruct (most_common_key_spec (x :: occ)) as (m & -> & _); [done|].
  simpl. eexists _, _. split; [done|]. split; [|done].
  repeat split. simpl. by apply insert_subseteq.
Qed.

(** A move is collected exactly when it follows an occurrence of the
    window's last [w] moves. *)
Lemma elem_of_followers (w : nat) (l : list Move) (x : Move) :
  x ∈ followers w l ↔
  ∃ i, take w (drop i l) = last_entries w l ∧ l !! (i + w) = Some x.
Proof.
  unfold followers. rewrite list_elem_of_In, in_flat_map. split.
  - intros (i & _ & Hx). case_decide as Hocc; [|by destruct Hx].
    exists i. split; [done|].
    destruct (l !! (i + w)) as [y|]; simpl in Hx; [|done].
    by destruct Hx as [->|[]].
  - intros (i & Hocc & Hx). exists i. split.
    + apply in_seq. apply lookup_lt_Some in Hx. lia.
    + rewrite decide_True by done. rewrite Hx. by left.
Qed.


(** Outside the positive window sizes: with [window_size = 0] the slice
    [l[-0:]] is the whole window, not its last 0 moves, and the scan
    collects nothing. *)
Lemma window_size_zero :
  get_pattern_prediction zero_window_detector = Ok (None, zero_window_detector) ∧
  current_key zero_window_detector = "rockrock"%string ∧
  followers 0 (move_history zero_window_detector) = [rock; rock].
Proof. by vm_compute. Qed.


(** ** Frequency bias *)

Lemma share_table_checked : share_table_exact = true.
Proof. vm_compute. reflexivity. Qed.

(** On every window the deque can hold, [count / total_moves >= 0.3] holds
    in binary64 exactly when [10 * count >= 3 * total_moves]. *)
Lemma share_default_exact (count total : nat) :
  0 < total ≤ 50 → count ≤ total →
  share_reaches default_frequency_threshold count total =
  (3 * total <=? 10 * count).
Proof.
  intros Ht Hc. pose proof share_table_checked as Htable.
  unfold share_table_exact in Htable.
  rewrite forallb_forall in Htable.
  specialize (Htable total). rewrite forallb_forall in Htable.
  apply Bool.eqb_prop, Htable; apply in_seq; lia.
Qed.

Lemma truediv_of_nat (count total : nat) :
  0 < total →
  truediv (Z.of_nat count) (Z.of_nat total) =
  Ok (PrimFloat.div (float_of_int (Z.of_nat count))
                    (float_of_int (Z.of_nat total))).
Proof.
  intros Ht. unfold truediv.
  by destruct (Z.eqb_spec (Z.of_nat total) 0); [lia|].
Qed.

(** The loop of [get_frequency_bias] never raises on a window that is not
    empty: it returns the first key whose share reaches the threshold. *)
Lemma frequency_scan_find (threshold : float) (total : nat)
    (g : Move → nat) (ks : list Move) :
  0 < total →
  frequency_scan threshold (Z.of_nat total) (map (fun k => (k, g k)) ks) =
  Ok (find (fun k => share_reaches threshold (g k) total) ks).
Proof.
  intros Ht. induction ks as [|k ks IH]; simpl; [done|].
  rewrite truediv_of_nat by done. simpl.
  unfold share_reaches at 1. by destruct (PrimFloat.leb _ _).
Qed.

Lemma get_frequency_bias_find (self : PatternDetector) :
  get_frequency_bias self =
  Ok (find (fun k => share_reaches (frequency_threshold self)
                       (occurrences k (move_history self))
                       (length (move_history self)))
           (first_seen (move_history self))).
Proof.
  unfold get_frequency_bias.
  destruct (move_history self) as [|x l] eqn:Hl; [done|].
  unfold len. rewrite Counter_first_seen, frequency_scan_find; [done|].
  simpl. lia.
Qed.

(** With the default threshold, Tier 2 is the first move, in the order the
    moves are first encountered in the window, whose share is at least
    three tenths. *)
Lemma get_frequency_bias_default (self : PatternDetector) :
  frequency_threshold self = default_frequency_threshold →
  length (move_history self) ≤ 50 →
  get_frequency_bias self =
  Ok (find (three_tenths (move_history self))
           (first_seen (move_history self))).
Proof.
  intros Hthr Hlen. rewrite get_frequency_bias_find, Hthr. f_equal.
  destruct (decide (move_history self = [])) as [->|Hne]; [done|].
  assert (0 < length (move_history self))
    by (destruct (move_history self); simpl; [done|lia]).
  unfold three_tenths.
  induction (first_seen (move_history self)) as [|k ks IH]; simpl; [done|].
  rewrite share_default_exact, IH;
    [done | lia | apply occurrences_le_length].
Qed.

Lemma first_index_not_in {A} `{EqDecision A} (x : A) (l : list A) :
  x ∉ l → first_index x l = length l.
Proof.
  intros Hx. rewrite <- (app_nil_r l) at 1.
  rewrite first_index_app_not_in by done. simpl. lia.
Qed.

(** [find] returns [m] exactly when [m] passes the test and nothing first
    encountered before it does. *)
Lemma find_first_seen {A} `{EqDecision A} (f : A → bool) (l : list A) (m : A) :
  m ∈ l →
  find f (first_seen l) = Some m ↔
  f m = true ∧ ∀ x, first_index x l < first_index m l → f x = false.
Proof.
  intros Hm. apply elem_of_first_seen, list_elem_of_split in Hm
    as (pre & post & Hseen).
  pose proof (NoDup_first_seen l) as Hnd. rewrite Hseen in Hnd.
  assert (∀ x, first_index x l < first_index m l ↔ x ∈ pre) as Hpre.
  { intros x. split.
    - intros Hlt. destruct (decide (x ∈ l)) as [Hx|Hx].
      + apply elem_of_first_seen in Hx. rewrite Hseen in Hx.
        apply elem_of_app in Hx as [Hx|[->|Hx]%elem_of_cons]; [done|lia|].
        pose proof (first_seen_order l pre m post x Hseen Hx). lia.
      + rewrite (first_index_not_in x) in Hlt by done.
        assert (m ∈ l) as Hm.
        { apply elem_of_first_seen. rewrite Hseen.
          apply elem_of_app. right. by left. }
        pose proof (first_index_in m l Hm). lia.
    - intros Hx. apply list_elem_of_split in Hx as (p1 & p2 & ->).
      rewrite <- app_assoc in Hseen. simpl in Hseen.
      apply (first_seen_order l p1 x (p2 ++ m :: post) m Hseen).
      apply elem_of_app. right. by left. }
  rewrite Hseen. clear Hseen. setoid_rewrite Hpre. clear Hpre.
  induction pre as [|y pre IH]; simpl.
  - destruct (f m) eqn:Hfm.
    + split; [intros _; split; [done|] | done].
      by intros x ?%elem_of_nil.
    + split; [|by intros [? _]].
      intros Hfind%find_some. destruct Hfind as [Hin Hfx].
      apply list_elem_of_In in Hin. apply NoDup_cons in Hnd as [Hnotin _].
      done.
  - apply NoDup_cons in Hnd as [Hy Hnd]. destruct (f y) eqn:Hfy.
    + split.
      * intros [= ->]. exfalso. apply Hy, elem_of_app. right. by left.
      * intros [_ Hall]. rewrite Hall in Hfy; [done | by left].
    + rewrite IH by done. split; intros [? Hall]; (split; [done|]).
      * intros x [->|?]%elem_of_cons; auto.
      * intros x ?. apply Hall. by right.
Qed.

(** ** The predictor *)

(** [get_ai_move], branch by branch. *)
Lemma get_ai_move_chain (w : World) :
  get_ai_move w =
  match get_pattern_prediction (pattern_detector (game w)) with
  | Raise e => Raise e
  | Ok (Some p, d) => get_counter_move p (set_detector d w)
  | Ok (None, d) =>
      match get_frequency_bias d with
      | Raise e => Raise e
      | Ok (Some f) => get_counter_move f (set_detector d w)
      | Ok None =>
          match opponent_history (state (game w)) with
          | (_ :: _) as h =>
              match most_common_key (Counter (slice h (Some (-5)%Z) None)) with
              | Ok m => get_counter_move m (set_detector d w)
              | Raise e => Raise e
              end
          | [] => random_choice MOVES (set_detector d w)
          end
      end
  end.
Proof.
  unfold get_ai_move, mbind, M_bind, on_detector, read, lift.
  destruct (get_pattern_prediction _) as [[[p|] d]|e]; simpl; [done| |done].
  destruct (get_frequency_bias d) as [[f|]|e]; simpl; [done| |done].
  destruct (opponent_history _) as [|x h]; [done|].
  by destruct (most_common_key _).
Qed.

(** [random.choice(MOVES)]: move number [k] for a draw of residue [k]. *)
Lemma random_choice_MOVES (w : World) :
  ∃ m, MOVES !! (rng w 0 mod 5) = Some m ∧
       random_choice MOVES w
       = Ok (m, {| rng := advance (rng w); game := game w |}).
Proof.
  unfold random_choice.
  destruct (choice_spec MOVES (rng w)) as (m & Hm & ->); [done|].
  by exists m.
Qed.

(** C1. [get_ai_move] is a priority chain that short-circuits. The pattern
    match decides if it predicts. Only if it does not, the frequency bias
    decides if it predicts. Only if neither does and the opponent's full
    history is not empty, the most frequent of its last 5 moves (ties broken
    by first-encountered order) decides. Only if that history is empty, the
    move is [random.choice(MOVES)], which can be each of the 5 moves. In
    each case the move depends on no lower tier. *)
Theorem ai_move_priority_chain (w : World) :
  match get_pattern_prediction (pattern_detector (game w)) with
  | Raise e => get_ai_move w = Raise e
  | Ok (Some p, d) =>
      tier_fired (game w) = Ok PatternMatch ∧
      get_ai_move w = get_counter_move p (set_detector d w)
  | Ok (None, d) =>
      match get_frequency_bias d with
      | Raise e => get_ai_move w = Raise e
      | Ok (Some f) =>
          tier_fired (game w) = Ok FrequencyBias ∧
          get_ai_move w = get_counter_move f (set_detector d w)
      | Ok None =>
          match opponent_history (state (game w)) with
          | (_ :: _) as h =>
              tier_fired (game w) = Ok ShortWindowMajority ∧
              ∃ m, first_most_frequent m (last_entries 5 h) ∧
                   get_ai_move w = get_counter_move m (set_detector d w)
          | [] =>
              tier_fired (game w) = Ok Fallback ∧
              get_ai_move w = random_choice MOVES (set_detector d w) ∧
              (∃ m, MOVES !! (rng w 0 mod 5) = Some m ∧
                    get_ai_move w =
                    Ok (m, {| rng := advance (rng w);
                              game := game (set_detector d w) |})) ∧
              (∀ m : Move, ∃ k, k < 5 ∧ MOVES !! k = Some m)
          end
      end
  end.
Proof.
  rewrite get_ai_move_chain. unfold tier_fired.
  destruct (get_pattern_prediction _) as [[[p|] d]|e]; simpl; [done| |done].
  destruct (get_frequency_bias d) as [[f|]|e]; simpl; [done| |done].
  destruct (opponent_history _) as [|x h] eqn:Hh.
  - split_and!; [done | done | apply (random_choice_MOVES (set_detector d w)) |].
    intros m. destruct m;
      [exists 0 | exists 1 | exists 2 | exists 3 | exists 4];
      (split; [lia | done]).
  - split; [done|]. rewrite (slice_last _ 5) by done.
    destruct (most_common_key_spec (last_entries 5 (x :: h))) as (m & Hm & ?).
    + intros Hnil%(f_equal length). revert Hnil.
      unfold last_entries. rewrite length_drop. simpl. lia.
    + exists m. change (Z.to_nat 5) with 5. by rewrite Hm.
Qed.

(** ** Rounds *)

(** [play_round], step by step. *)
Lemma play_round_eq (opponent_strategy : string)
    (custom_moves : option (list Move)) (round_number : Z) (w : World) :
  play_round opponent_strategy custom_moves round_number w =
  match opponent_move_source opponent_strategy custom_moves round_number w with
  | Raise e => Raise e
  | Ok (opponent_move, w1) =>
      match get_ai_move (at_prediction opponent_move w1) with
      | Raise e => Raise e
      | Ok (ai_move, w2) =>
          Ok (ai_move, opponent_move, get_result ai_move opponent_move,
              set_state
                {| player_history :=
                     player_history (state (game w2)) ++ [ai_move];
                   opponent_history :=
                     opponent_history (state (game w2)) ++ [opponent_move] |}
                w2)
      end
  end.
Proof.
  unfold play_round, mbind, M_bind, write, mret, M_ret, at_prediction.
  destruct (opponent_move_source _ _ _ w) as [[opp w1]|e]; [|done].
  by destruct (get_ai_move _) as [[ai w2]|e].
Qed.

Lemma getitem_neg1 {A} (l : list A) :
  l ≠ [] → ∃ x, last l = Some x ∧ getitem l (-1) = Ok x.
Proof.
  intros Hl. destruct (snoc_cases l) as [->|(l' & x & ->)]; [done|].
  exists x. by rewrite last_snoc, getitem_last.
Qed.

(** The position after [i] in the cycle through [MOVES]. *)
Lemma index_successor (m : Move) :
  ∃ (i : nat) m', index MOVES m = Ok (Z.of_nat i) ∧ MOVES !! i = Some m ∧
                  MOVES !! ((i + 1) mod 5) = Some m' ∧
                  getitem MOVES ((Z.of_nat i + 1) `mod` len MOVES) = Ok m'.
Proof.
  destruct m;
    [exists 0, paper | exists 1, scissors | exists 2, lizard
     | exists 3, spock | exists 4, rock]; done.
Qed.

(** The opponent's move never touches the game, only the generator. *)
Lemma opponent_move_source_game (opponent_strategy : string)
    (custom_moves : option (list Move)) (round_number : Z) (w w1 : World)
    (opponent_move : Move) :
  opponent_move_source opponent_strategy custom_moves round_number w
  = Ok (opponent_move, w1) →
  game w1 = game w.
Proof.
  assert (∀ m w1, random_choice MOVES w = Ok (m, w1) → game w1 = game w)
    as Hrandom.
  { intros m w' Hc. destruct (random_choice_MOVES w) as (m' & _ & Heq).
    rewrite Heq in Hc. by injection Hc as _ <-. }
  assert (∀ (r : result Move) m w1, lift r w = Ok (m, w1) → game w1 = game w)
    as Hlift.
  { intros [x|e] m w' [=]. by subst. }
  unfold opponent_move_source.
  destruct (String.eqb _ "random"); [by eauto|].
  destruct (String.eqb _ "repeating").
  { unfold mbind, M_bind, read.
    destruct (opponent_history _); by eauto. }
  destruct (String.eqb _ "cycling").
  { unfold mbind, M_bind, read, mret, M_ret.
    destruct (opponent_history _) as [|x h]; [by eauto|].
    destruct (lift (getitem (x :: h) (-1)) w) as [[m0 w0]|e] eqn:H0; [|done].
    apply Hlift in H0 as Hg0.
    destruct (lift (index MOVES m0) w0) as [[i w0']|e] eqn:H1; [|done].
    intros Hget.
    assert (game w0' = game w0) as Hg1.
    { revert H1. unfold lift. destruct (index MOVES m0); [|done].
      by intros [= _ <-]. }
    revert Hget. unfold lift. destruct (getitem MOVES _); [|done].
    intros [= _ <-]. congruence. }
  destruct (String.eqb _ "custom"); [|by eauto].
  destruct custom_moves as [[|c cs]|]; [by eauto| |by eauto].
  destruct (_ <? _)%Z; by eauto.
Qed.

(** With a round number that is not negative, the opponent's move never
    raises. *)
Lemma opponent_move_source_ok (opponent_strategy : string)
    (custom_moves : option (list Move)) (round_number : Z) (w : World) :
  (0 ≤ round_number)%Z →
  ∃ opponent_move w1,
    opponent_move_source opponent_strategy custom_moves round_number w
    = Ok (opponent_move, w1).
Proof.
  intros Hrn.
  assert (∃ m w1, random_choice MOVES w = Ok (m, w1)) as Hrandom.
  { destruct (random_choice_MOVES w) as (m & _ & ->). eauto. }
  unfold opponent_move_source.
  destruct (String.eqb _ "random"); [done|].
  destruct (String.eqb _ "repeating").
  { unfold mbind, M_bind, read.
    destruct (opponent_history _) as [|x h] eqn:Hh; [done|].
    destruct (getitem_neg1 (x :: h)) as (m & _ & ->); [done|].
    simpl. eauto. }
  destruct (String.eqb _ "cycling").
  { unfold mbind, M_bind, read, mret, M_ret.
    destruct (opponent_history _) as [|x h] eqn:Hh; [simpl; eauto|].
    destruct (getitem_neg1 (x :: h)) as (m & _ & ->); [done|].
    unfold lift. destruct (index_successor m) as (i & m' & -> & _ & _ & Hget).
    rewrite Hget. eauto. }
  destruct (String.eqb _ "custom"); [|done].
  destruct custom_moves as [[|c cs]|]; [done| |done].
  destruct (Z.ltb_spec round_number (len (c :: cs))); [|done].
  rewrite <- (Z2Nat.id round_number) by done. rewrite getitem_lookup.
  destruct (lookup_lt_is_Some_2 (c :: cs) (Z.to_nat round_number)) as [m ->].
  { unfold len in *. lia. }
  simpl. eauto.
Qed.

(** Any result of [get_pattern_prediction] leaves the window alone and the
    cache with the entries it had. *)
Lemma get_pattern_prediction_extends (self self' : PatternDetector)
    (p : option Move) :
  get_pattern_prediction self = Ok (p, self') → detector_extends self self'.
Proof.
  unfold get_pattern_prediction.
  destruct (_ <? _)%Z; [intros [= _ <-]; apply detector_extends_refl|].
  destruct (pattern_cache self !! _) as [v|] eqn:Hkey;
    [intros [= _ <-]; apply detector_extends_refl|].
  destruct (for_each _ _ _) as [[|x occ]|e]; simpl;
    [intros [= _ <-]; apply detector_extends_refl| |done].
  destruct (most_common_key _); simpl; [|done].
  intros [= _ <-]. repeat split. simpl. by apply insert_subseteq.
Qed.

(** Without a prediction the detector is left as it was. *)
Lemma get_pattern_prediction_none (self self' : PatternDetector) :
  get_pattern_prediction self = Ok (None, self') → self' = self.
Proof.
  unfold get_pattern_prediction.
  destruct (_ <? _)%Z; [by intros [= <-]|].
  destruct (pattern_cache self !! _); [done|].
  destruct (for_each _ _ _) as [[|x occ]|e]; simpl; [by intros [= <-]| |done].
  by destruct (most_common_key _).
Qed.

(** [get_ai_move] changes nothing in the game but the cache: the detector
    is left as the pattern match leaves it. *)
Lemma get_ai_move_detector (w w' : World) (ai_move : Move) :
  get_ai_move w = Ok (ai_move, w') →
  state (game w') = state (game w) ∧
  ∃ p, get_pattern_prediction (pattern_detector (game w))
       = Ok (p, pattern_detector (game w')).
Proof.
  rewrite get_ai_move_chain.
  destruct (get_pattern_prediction _) as [[p d]|e] eqn:Hp; [|by destruct e].
  assert (∀ m, get_counter_move m (set_detector d w) = Ok (ai_move, w') →
               state (game w') = state (game w) ∧
               ∃ p', Ok (p, d) = Ok (p', pattern_detector (game w')))
    as Hcounter.
  { intros m Hm. destruct (get_counter_move_spec m (set_detector d w))
      as (c & Hc & _). rewrite Hc in Hm. injection Hm as _ <-. eauto. }
  destruct p as [p|]; [by eauto|].
  destruct (get_frequency_bias d) as [[f|]|e]; [by eauto| |done].
  destruct (opponent_history _) as [|x h].
  - intros Hm. destruct (random_choice_MOVES (set_detector d w))
      as (c & _ & Hc). rewrite Hc in Hm. injection Hm as _ <-. eauto.
  - destruct (most_common_key _); [by eauto|done].
Qed.

Lemma get_ai_move_extends (w w' : World) (ai_move : Move) :
  get_ai_move w = Ok (ai_move, w') →
  state (game w') = state (game w) ∧
  detector_extends (pattern_detector (game w)) (pattern_detector (game w')).
Proof.
  intros [Hstate [p Hp]]%get_ai_move_detector.
  by apply get_pattern_prediction_extends in Hp.
Qed.

(** [get_ai_move] never raises when the window size is not negative. *)
Lemma get_ai_move_ok (w : World) :
  (0 ≤ window_size (pattern_detector (game w)))%Z →
  ∃ ai_move w', get_ai_move w = Ok (ai_move, w').
Proof.
  intros Hw. rewrite get_ai_move_chain.
  destruct (get_pattern_prediction_ok _ Hw) as (p & d & -> & _ & _).
  assert (∀ m, ∃ c w', get_counter_move m (set_detector d w) = Ok (c, w'))
    as Hcounter.
  { intros m. destruct (get_counter_move_spec m (set_detector d w))
      as (c & -> & _). eauto. }
  destruct p as [p|]; [done|].
  rewrite get_frequency_bias_find.
  destruct (find _ _); [done|].
  destruct (opponent_history _) as [|x h].
  - destruct (random_choice_MOVES (set_detector d w)) as (c & _ & ->). eauto.
  - rewrite (slice_last _ 5) by done.
    destruct (most_common_key_spec (last_entries (Z.to_nat 5) (x :: h)))
      as (m & -> & _); [|done].
    intros Hnil%(f_equal length). revert Hnil.
    unfold last_entries. rewrite length_drop. simpl. lia.
Qed.

(** C3, as the code has it. In a window of 10 moves with 4 [rock], under the
    default threshold, Tier 2 predicts the first move, in first-encountered
    order, that occurs 3 times or more: it predicts [m] exactly when [m]
    occurs 3 times or more and no move first encountered before [m] does;
    there is always such a move, first encountered no later than [rock];
    it is [rock] exactly when no move first encountered before [rock]
    occurs 3 times or more. [get_ai_move] counters the move Tier 2 predicts
    whenever Tier 1 yields no prediction. *)
Theorem frequency_bias_rock (self : PatternDetector) :
  frequency_threshold self = default_frequency_threshold →
  length (move_history self) = 10 →
  occurrences rock (move_history self) = 4 →
  let l := move_history self in
  let rock_first :=
    ∀ x, first_index x l < first_index rock l → occurrences x l < 3 in
  (get_frequency_bias self = Ok (Some rock) ↔ rock_first) ∧
  (∀ m, get_frequency_bias self = Ok (Some m) ↔
        m ∈ l ∧ 3 ≤ occurrences m l ∧
        ∀ x, first_index x l < first_index m l → occurrences x l < 3) ∧
  (∃ m, get_frequency_bias self = Ok (Some m) ∧
        3 ≤ occurrences m l ∧
        (∀ x, first_index x l < first_index m l → occurrences x l < 3) ∧
        first_index m l ≤ first_index rock l) ∧
  (∀ w d m, pattern_detector (game w) = self →
            get_pattern_prediction self = Ok (None, d) →
            get_frequency_bias self = Ok (Some m) →
            get_ai_move w = get_counter_move m (set_detector d w)) ∧
  (∀ w d, pattern_detector (game w) = self →
          get_pattern_prediction self = Ok (None, d) →
          rock_first →
          get_ai_move w = get_counter_move rock (set_detector d w)).
Proof.
  intros Hthr Hlen Hrock l rock_first.
  change (occurrences rock l = 4) in Hrock.
  assert (rock ∈ l) as Hin.
  { destruct (decide (rock ∈ l)) as [|Hn]; [done|].
    apply occurrences_not_in in Hn. lia. }
  assert (∀ x, three_tenths l x = true ↔ 3 ≤ occurrences x l) as Htest.
  { intros x. unfold three_tenths, l. rewrite Hlen, Nat.leb_le. lia. }
  assert (get_frequency_bias self = Ok (Some rock) ↔ rock_first) as Hiff.
  { rewrite get_frequency_bias_default by (done || lia). fold l.
    split.
    - intros [= Hfind]. apply find_first_seen in Hfind as [_ Hall]; [|done].
      intros x Hx. specialize (Hall x Hx).
      destruct (decide (3 ≤ occurrences x l)) as [Hge|]; [|lia].
      apply Htest in Hge. congruence.
    - intros Hfirst. f_equal. apply find_first_seen; [done|]. split.
      + apply Htest. lia.
      + intros x Hx. specialize (Hfirst x Hx).
        destruct (three_tenths l x) eqn:Hx3; [|done].
        apply Htest in Hx3. lia. }
  assert (∀ x, three_tenths l x = false ↔ occurrences x l < 3) as Hfail.
  { intros x. pose proof (Htest x) as Hx.
    destruct (three_tenths l x); split; intros Hlt; [done | | | done].
    - assert (3 ≤ occurrences x l) by (by apply Hx). lia.
    - destruct (decide (3 ≤ occurrences x l)) as [Hge|]; [|lia].
      by apply Hx in Hge. }
  assert (∀ m, get_frequency_bias self = Ok (Some m) ↔
               m ∈ l ∧ 3 ≤ occurrences m l ∧
               ∀ x, first_index x l < first_index m l → occurrences x l < 3)
    as Hfirst_reaching.
  { intros m. rewrite get_frequency_bias_default by (done || lia). fold l.
    split.
    - intros [= Hfind]. pose proof Hfind as [Hm _]%find_some.
      rewrite <- list_elem_of_In, elem_of_first_seen in Hm.
      apply find_first_seen in Hfind as [Hm3 Hall]; [|done].
      split_and!; [done | by apply Htest |].
      intros x Hx. by apply Hfail, Hall.
    - intros (Hm & Hm3 & Hall). f_equal. apply find_first_seen; [done|].
      split; [by apply Htest|]. intros x Hx. by apply Hfail, Hall. }
  assert (∀ w d m, pattern_detector (game w) = self →
                   get_pattern_prediction self = Ok (None, d) →
                   get_frequency_bias self = Ok (Some m) →
                   get_ai_move w = get_counter_move m (set_detector d w))
    as Hcounter.
  { intros w d m Hd Hnone Hm.
    pose proof (get_pattern_prediction_none _ _ Hnone) as ->.
    by rewrite get_ai_move_chain, Hd, Hnone, Hm. }
  split_and!; [done | done | | done |].
  - rewrite get_frequency_bias_default by (done || lia). fold l.
    destruct (find (three_tenths l) (first_seen l)) as [m|] eqn:Hfind.
    + exists m. split; [done|].
      pose proof Hfind as [Hm Hm3]%find_some.
      rewrite <- list_elem_of_In, elem_of_first_seen in Hm.
      apply find_first_seen in Hfind as [_ Hall]; [|done].
      split_and!; [by apply Htest | by intros x Hx; apply Hfail, Hall |].
      destruct (decide (first_index m l ≤ first_index rock l)); [done|].
      assert (three_tenths l rock = false) by (apply Hall; lia).
      assert (three_tenths l rock = true) by (apply Htest; lia).
      congruence.
    + assert (three_tenths l rock = false).
      { apply (find_none _ _ Hfind rock).
        by rewrite <- list_elem_of_In, elem_of_first_seen. }
      assert (three_tenths l rock = true) by (apply Htest; lia).
      congruence.
  - intros w d Hd Hnone Hfirst. apply Hiff in Hfirst. by apply Hcounter.
Qed.

Lemma frequency_bias_rock_witness :
  frequency_threshold rock_first_detector = default_frequency_threshold ∧
  length (move_history rock_first_detector) = 10 ∧
  occurrences rock (move_history rock_first_detector) = 4 ∧
  get_frequency_bias rock_first_detector = Ok (Some rock).
Proof.
  split_and!; [done..|].
  destruct (frequency_bias_rock rock_first_detector) as [Hiff _]; [done..|].
  apply Hiff. intros x Hx. vm_compute in Hx. lia.
Defined.

(** C3 as stated fails: 4 [rock] in a window of 10 do not make Tier 2
    predict [rock] when a move seen earlier has a share of 0.3 too. *)
Lemma frequency_bias_rock_counterexample :
  frequency_threshold paper_first_detector = default_frequency_threshold ∧
  length (move_history paper_first_detector) = 10 ∧
  occurrences rock (move_history paper_first_detector) = 4 ∧
  get_pattern_prediction paper_first_detector
  = Ok (None, paper_first_detector) ∧
  get_frequency_bias paper_first_detector = Ok (Some paper) ∧
  get_frequency_bias paper_first_detector ≠ Ok (Some rock).
Proof. by vm_compute. Qed.

(** The first window of a game holds one move: no pattern, and a share
    of 1. *)
Lemma first_window (m : Move) :
  get_pattern_prediction (add_move m PatternDetector_default)
  = Ok (None, add_move m PatternDetector_default) ∧
  get_frequency_bias (add_move m PatternDetector_default) = Ok (Some m).
Proof. destruct m; by vm_compute. Qed.

(** Outside the range of round numbers: [custom_moves[round_number]] with a
    negative index below [-len(custom_moves)] raises. *)
Lemma play_round_negative_round (r : RandomState) :
  play_round "custom" (Some [rock]) (-2) (new_game r) = Raise IndexError.
Proof. reflexivity. Qed.

(** ** A game's lifetime *)

(** The deque keeps the last 50 moves. *)
Lemma deque_append_last_entries {A} (h : list A) (x : A) :
  deque_append 50 (last_entries 50 h) x = last_entries 50 (h ++ [x]).
Proof.
  unfold deque_append, last_entries.
  rewrite !length_app, length_drop. simpl.
  destruct (Nat.ltb_spec 50 (length h - (length h - 50) + 1)).
  - rewrite drop_app, length_drop.
    replace (1 - (length h - (length h - 50))) with 0 by lia.
    rewrite drop_drop. simpl.
    rewrite drop_app. replace (length h + 1 - 50 - length h) with 0 by lia.
    simpl. do 2 f_equal. lia.
  - rewrite drop_app. replace (length h + 1 - 50 - length h) with 0 by lia.
    simpl. do 2 f_equal. lia.
Qed.

Lemma game_invariant_init : game_invariant RPSLSGame_init.
Proof. by repeat split. Qed.

(** With 3 moves or fewer in the window and nothing cached, the pattern
    match has nothing to go on. *)
Lemma pattern_prediction_short_window (self : PatternDetector) :
  window_size self = default_window_size →
  length (move_history self) ≤ 3 →
  pattern_cache self = ∅ →
  get_pattern_prediction self = Ok (None, self).
Proof.
  intros Hw Hlen Hcache. rewrite get_pattern_prediction_eq by (by rewrite Hw).
  rewrite Hw, Hcache. change (Z.to_nat default_window_size) with 3.
  destruct (_ <? _); [done|]. rewrite lookup_empty.
  rewrite <- followers_scan.
  by replace (length (move_history self) - 3) with 0 by lia.
Qed.

Lemma first_seen_head {A} `{EqDecision A} (x : A) (l : list A) :
  ∃ t, first_seen (x :: l) = x :: t.
Proof.
  induction l as [|y l [t IH]] using rev_ind.
  - exists []. apply (first_seen_snoc [] x).
  - rewrite app_comm_cons, first_seen_snoc, IH. case_decide; eauto.
Qed.

(** With 3 moves or fewer in the window, the first move of the window has
    a share of a third or more: Tier 2 predicts it. *)
Lemma frequency_bias_short_window (self : PatternDetector) (x : Move)
    (l : list Move) :
  frequency_threshold self = default_frequency_threshold →
  move_history self = x :: l →
  length (move_history self) ≤ 3 →
  get_frequency_bias self = Ok (Some x).
Proof.
  intros Hthr Hl Hlen. rewrite get_frequency_bias_default by (done || lia).
  rewrite Hl in *. destruct (first_seen_head x l) as [t ->].
  assert (three_tenths (x :: l) x = true) as Hx.
  { unfold three_tenths. apply Nat.leb_le.
    cbn [length occurrences] in *. rewrite decide_True by done. lia. }
  cbn [find]. by rewrite Hx.
Qed.

(** What a round that returns has done. *)
Lemma play_round_inv (opponent_strategy : string)
    (custom_moves : option (list Move)) (round_number : Z) (w w' : World)
    (out : Move * Move * Z) :
  play_round opponent_strategy custom_moves round_number w = Ok (out, w') →
  ∃ ai_move opponent_move w1 w2,
    out = (ai_move, opponent_move, get_result ai_move opponent_move) ∧
    opponent_move_source opponent_strategy custom_moves round_number w
    = Ok (opponent_move, w1) ∧
    game w1 = game w ∧
    get_ai_move (at_prediction opponent_move w1) = Ok (ai_move, w2) ∧
    pattern_detector (game w') = pattern_detector (game w2) ∧
    detector_extends (add_move opponent_move (pattern_detector (game w)))
                     (pattern_detector (game w')) ∧
    player_history (state (game w'))
    = player_history (state (game w)) ++ [ai_move] ∧
    opponent_history (state (game w'))
    = opponent_history (state (game w)) ++ [opponent_move].
Proof.
  rewrite play_round_eq.
  destruct (opponent_move_source _ _ _ w) as [[opp w1]|e] eqn:Hopp; [|done].
  destruct (get_ai_move _) as [[ai w2]|e] eqn:Hai; [|done].
  intros [= <- <-].
  pose proof (opponent_move_source_game _ _ _ _ _ _ Hopp) as Hgame.
  apply get_ai_move_extends in Hai as Hext. destruct Hext as [Hstate Hext].
  exists ai, opp, w1, w2. simpl. rewrite Hstate. simpl. rewrite Hgame.
  split_and!; try done. simpl in Hext. by rewrite Hgame in Hext.
Qed.

(** A round preserves the invariant. *)
Lemma game_invariant_round (opponent_strategy : string)
    (custom_moves : option (list Move)) (round_number : Z) (w w' : World)
    (out : Move * Move * Z) :
  game_invariant (game w) →
  play_round opponent_strategy custom_moves round_number w = Ok (out, w') →
  game_invariant (game w').
Proof.
  intros (Hw & Hthr & Hmh & Hcache & Hlen)
         (ai & opp & w1 & w2 & _ & _ & Hgame & Hai & Hpd & Hext & Hph & Hoh)
           %play_round_inv.
  pose proof Hext as (Hw' & Hthr' & Hmh' & _).
  simpl in Hw', Hthr', Hmh'. rewrite Hmh, deque_append_last_entries in Hmh'.
  unfold game_invariant. rewrite Hw', Hthr', Hmh', Hph, Hoh, !length_app.
  split_and!; [done | done | done | | simpl; lia].
  intros Hshort.
  apply get_ai_move_detector in Hai as [_ [p Hp]].
  rewrite pattern_prediction_short_window in Hp.
  - injection Hp as _ Hd. rewrite Hpd, <- Hd. simpl. rewrite Hgame.
    apply Hcache. rewrite Hmh. revert Hshort. unfold last_entries.
    rewrite !length_drop, length_app. simpl. lia.
  - simpl. by rewrite Hgame.
  - simpl. rewrite Hgame, Hmh, deque_append_last_entries. done.
  - simpl. rewrite Hgame. apply Hcache. rewrite Hmh. revert Hshort.
    unfold last_entries. rewrite !length_drop, length_app. simpl. lia.
Qed.

Lemma reachable_invariant (w : World) : reachable w → game_invariant (game w).
Proof.
  intros [r Hsteps]. revert w Hsteps.
  apply rtc_ind_r; [apply game_invariant_init|].
  intros w0 w1 _ (r' & s & cm & rn & out & Hround) IH.
  by eapply game_invariant_round in Hround.
Qed.

Lemma last_entries_nil {A} (n : nat) (l : list A) :
  0 < n → last_entries n l = [] → l = [].
Proof.
  intros Hn Hnil%(f_equal length). revert Hnil. unfold last_entries.
  rewrite length_drop. destruct l; simpl; [done|lia].
Qed.

Lemma deque_append_nonempty {A} (d : list A) (x : A) :
  deque_append 50 d x ≠ [].
Proof.
  unfold deque_append. intros Hnil%(f_equal length). revert Hnil.
  destruct (_ <? _) eqn:Hlt; rewrite ?length_drop, length_app; simpl.
  - apply Nat.ltb_lt in Hlt. rewrite length_app in Hlt. simpl in Hlt. lia.
  - lia.
Qed.

(** C7. The uniform fallback of [get_ai_move] is unreachable through
    [play_round]. In every round of a game's lifetime, whatever the opponent
    plays, the window is not empty when the predictor runs; with 3 moves or
    fewer in it Tier 2 decides; with more, the opponent's history is not
    empty; so the deciding tier is never the fallback and the move is a
    counter-move drawn by [get_counter_move]. *)
Theorem fallback_unreachable (w w1 : World) (r : RandomState)
    (opponent_strategy : string) (custom_moves : option (list Move))
    (round_number : Z) (opponent_move : Move) :
  reachable w →
  opponent_move_source opponent_strategy custom_moves round_number
                       {| rng := r; game := game w |}
  = Ok (opponent_move, w1) →
  let w2 := at_prediction opponent_move w1 in
  let window := move_history (pattern_detector (game w2)) in
  window ≠ [] ∧
  (length window ≤ 3 → tier_fired (game w2) = Ok FrequencyBias) ∧
  (3 < length window → opponent_history (state (game w2)) ≠ []) ∧
  (∃ t, tier_fired (game w2) = Ok t ∧ t ≠ Fallback) ∧
  (∃ p d ai_move w3,
     get_ai_move w2 = get_counter_move p (set_detector d w2) ∧
     get_ai_move w2 = Ok (ai_move, w3) ∧
     ai_move ∈ possible_counters p).
Proof.
  intros (Hw & Hthr & Hmh & Hcache & _)%reachable_invariant Hopp w2 window.
  apply opponent_move_source_game in Hopp as Hgame. simpl in Hgame.
  set (d2 := pattern_detector (game w2)).
  assert (d2 = add_move opponent_move (pattern_detector (game w))) as Hd2
    by (unfold d2, w2; simpl; by rewrite Hgame).
  assert (window_size d2 = default_window_size) as Hw2 by (by rewrite Hd2).
  assert (frequency_threshold d2 = default_frequency_threshold) as Hthr2
    by (by rewrite Hd2).
  assert (window = deque_append 50 (move_history (pattern_detector (game w)))
                                opponent_move) as Hwindow
    by (unfold window; fold d2; by rewrite Hd2).
  assert (window ≠ []) as Hne
    by (rewrite Hwindow; apply deque_append_nonempty).
  assert (opponent_history (state (game w2))
          = opponent_history (state (game w))) as Hhist
    by (unfold w2; simpl; by rewrite Hgame).
  assert (length window ≤ 3 →
          get_pattern_prediction d2 = Ok (None, d2) ∧
          ∃ x, get_frequency_bias d2 = Ok (Some x)) as Hshort.
  { intros Hlen. split.
    - apply pattern_prediction_short_window; [done | done |].
      rewrite Hd2. simpl. apply Hcache.
      rewrite Hwindow in Hlen. revert Hlen. unfold deque_append.
      destruct (_ <? _); rewrite ?length_drop, length_app; simpl; lia.
    - assert (∃ x l, window = x :: l) as (x & l & Hl)
        by (destruct window; [done | eauto]).
      exists x.
      apply (frequency_bias_short_window d2 x l);
        [done | exact Hl | exact Hlen]. }
  assert (3 < length window → opponent_history (state (game w2)) ≠ [])
    as Hlong.
  { intros Hlen Hnil. rewrite Hhist in Hnil. rewrite Hnil in Hmh.
    rewrite Hwindow, Hmh in Hlen. simpl in Hlen. lia. }
  assert (∃ t p d, tier_fired (game w2) = Ok t ∧ t ≠ Fallback ∧
                   get_ai_move w2 = get_counter_move p (set_detector d w2))
    as (t & p & d & Htier & Ht & Hai).
  { unfold tier_fired. rewrite get_ai_move_chain. fold d2.
    destruct (decide (length window ≤ 3)) as [Hle|Hgt].
    - destruct (Hshort Hle) as [-> [x Hx]]. simpl. rewrite Hx. simpl.
      by exists FrequencyBias, x, d2.
    - destruct (get_pattern_prediction_ok d2) as (p & d & -> & _ & _);
        [by rewrite Hw2|].
      simpl. destruct p as [p|]; [by exists PatternMatch, p, d|].
      rewrite get_frequency_bias_find. simpl.
      destruct (find _ _) as [f|]; [by exists FrequencyBias, f, d|].
      destruct (opponent_history (state (game w1))) as [|x h] eqn:Hh;
        [exfalso; apply Hlong; [lia | exact Hh]|].
      rewrite (slice_last _ 5) by done.
      destruct (most_common_key_spec (last_entries (Z.to_nat 5) (x :: h)))
        as (m & -> & _).
      { intros Hnil%last_entries_nil; [done | simpl; lia]. }
      by exists ShortWindowMajority, m, d. }
  split_and!; [done | | done | by eauto |].
  - intros Hle. destruct (Hshort Hle) as [Hp [x Hx]].
    unfold tier_fired. fold d2. rewrite Hp. simpl. by rewrite Hx.
  - destruct (get_counter_move_spec p (set_detector d w2))
      as (c & Hc & Hin & _).
    exists p, d, c. eexists. by rewrite Hai.
Qed.

Lemma fallback_unreachable_witness :
  reachable (new_game (fun _ => 0)) ∧
  opponent_move_source "random" None 0 (new_game (fun _ => 0))
  = Ok (rock, new_game (fun _ => 0)) ∧
  tier_fired (game (at_prediction rock (new_game (fun _ => 0))))
  = Ok FrequencyBias.
Proof.
  assert (reachable (new_game (fun _ => 0))) as Hreach
    by (exists (fun _ => 0); apply rtc_refl).
  split_and!; [done | done |].
  destruct (fallback_unreachable (new_game (fun _ => 0))
              (new_game (fun _ => 0)) (fun _ => 0) "random" None 0 rock
              Hreach eq_refl) as (_ & Hshort & _).
  apply Hshort. simpl. lia.
Defined.

(** ** Opponent strategies *)

Lemma unrecognized_eqb (opponent_strategy : string) :
  ¬ recognized opponent_strategy →
  String.eqb opponent_strategy "random" = false ∧
  String.eqb opponent_strategy "repeating" = false ∧
  String.eqb opponent_strategy "cycling" = false ∧
  String.eqb opponent_strategy "custom" = false.
Proof.
  unfold recognized. intros Hnot.
  split_and!; apply String.eqb_neq; intros ->; apply Hnot; in_list.
Qed.

(** A round never raises when the window size and the round number are not
    negative. *)
Lemma play_round_ok (opponent_strategy : string)
    (custom_moves : option (list Move)) (round_number : Z) (w : World) :
  (0 ≤ window_size (pattern_detector (game w)))%Z →
  (0 ≤ round_number)%Z →
  ∃ out w', play_round opponent_strategy custom_moves round_number w
            = Ok (out, w').
Proof.
  intros Hw Hrn. rewrite play_round_eq.
  destruct (opponent_move_source_ok opponent_strategy custom_moves
              round_number w Hrn) as (opp & w1 & Hopp).
  rewrite Hopp. apply opponent_move_source_game in Hopp as Hgame.
  destruct (get_ai_move_ok (at_prediction opp w1)) as (ai & w2 & ->);
    [simpl; by rewrite Hgame | eauto].
Qed.

(** C8. A strategy name other than "random", "repeating", "cycling" and
    "custom" makes [play_round] behave as with "random": the opponent's move
    is [random.choice(MOVES)], the round is the same computation, and no
    error is raised for the name (nor at all in a game as [RPSLSGame()] makes
    it, and in any game whose window size is not negative). *)
Theorem unrecognized_strategy_is_random (opponent_strategy : string)
    (custom_moves : option (list Move)) (round_number : Z) (w : World) :
  ¬ recognized opponent_strategy →
  opponent_move_source opponent_strategy custom_moves round_number w
  = random_choice MOVES w ∧
  opponent_move_source opponent_strategy custom_moves round_number w
  = opponent_move_source "random" custom_moves round_number w ∧
  play_round opponent_strategy custom_moves round_number w
  = play_round "random" custom_moves round_number w ∧
  (∃ m, MOVES !! (rng w 0 mod 5) = Some m ∧
        opponent_move_source opponent_strategy custom_moves round_number w
        = Ok (m, {| rng := advance (rng w); game := game w |})) ∧
  ((0 ≤ window_size (pattern_detector (game w)))%Z →
   ∃ out w', play_round opponent_strategy custom_moves round_number w
             = Ok (out, w')) ∧
  (reachable w →
   ∃ out w', play_round opponent_strategy custom_moves round_number w
             = Ok (out, w')).
Proof.
  intros (Hrandom & Hrepeating & Hcycling & Hcustom)%unrecognized_eqb.
  assert (opponent_move_source opponent_strategy custom_moves round_number w
          = random_choice MOVES w) as Hsource.
  { unfold opponent_move_source.
    by rewrite Hrandom, Hrepeating, Hcycling, Hcustom. }
  assert ((0 ≤ window_size (pattern_detector (game w)))%Z →
          ∃ out w', play_round opponent_strategy custom_moves round_number w
                    = Ok (out, w')) as Hok.
  { intros Hw. rewrite play_round_eq, Hsource.
    destruct (random_choice_MOVES w) as (m & _ & ->).
    destruct (get_ai_move_ok
                (at_prediction m {| rng := advance (rng w); game := game w |}))
      as (ai & w2 & ->); [done | eauto]. }
  split_and!; [done | done | | | done |].
  - by rewrite !play_round_eq, Hsource.
  - rewrite Hsource. apply random_choice_MOVES.
  - intros (Hw & _)%reachable_invariant. apply Hok. by rewrite Hw.
Qed.

Lemma unrecognized_strategy_is_random_witness :
  ¬ recognized "mirror" ∧
  play_round "mirror" None 0 (new_game (fun n => n))
  = play_round "random" None 0 (new_game (fun n => n)) ∧
  opponent_move_source "mirror" None 0 (new_game (fun n => n))
  = random_choice MOVES (new_game (fun n => n)).
Proof.
  assert (¬ recognized "mirror") as Hnot.
  { unfold recognized. not_in_list. }
  destruct (unrecognized_strategy_is_random "mirror" None 0
              (new_game (fun n => n)) Hnot) as (Hsource & _ & Hround & _).
  by split_and!.
Defined.

(** ** The pattern cache *)

Lemma add_move_cache (move : Move) (self : PatternDetector) :
  pattern_cache (add_move move self) = pattern_cache self.
Proof. done. Qed.

(** A round leaves every cache entry as it was. *)
Lemma play_round_cache (opponent_strategy : string)
    (custom_moves : option (list Move)) (round_number : Z) (w w' : World)
    (out : Move * Move * Z) :
  play_round opponent_strategy custom_moves round_number w = Ok (out, w') →
  pattern_cache (pattern_detector (game w))
  ⊆ pattern_cache (pattern_detector (game w')).
Proof.
  intros (ai & opp & w1 & w2 & _ & _ & _ & _ & _ & Hext & _)%play_round_inv.
  by destruct Hext as (_ & _ & _ & Hcache).
Qed.

(** C9. Pattern cache idempotence. While the window has at least
    [window_size] moves and the cache holds the key of its last moves, any
    number of calls of [get_pattern_prediction] return the cached move, each
    time, and leave the detector as it is: nothing is recomputed. An entry
    of the cache is never changed or removed: not by a call of
    [get_pattern_prediction], not by [add_move], and not by any number of
    rounds of a game. *)
Theorem pattern_cache_idempotent (self : PatternDetector) (cached : Move)
    (n : nat) :
  (window_size self ≤ len (move_history self))%Z →
  pattern_cache self !! current_key self = Some cached →
  get_pattern_prediction self = Ok (Some cached, self) ∧
  repeated_predictions n self = Ok (replicate n (Some cached), self) ∧
  (∀ d p d' key v,
     get_pattern_prediction d = Ok (p, d') →
     pattern_cache d !! key = Some v → pattern_cache d' !! key = Some v) ∧
  (∀ d m key,
     pattern_cache (add_move m d) !! key = pattern_cache d !! key) ∧
  (∀ w w' key v,
     rtc round_step w w' →
     pattern_cache (pattern_detector (game w)) !! key = Some v →
     pattern_cache (pattern_detector (game w')) !! key = Some v).
Proof.
  intros Hlen Hkey.
  assert (get_pattern_prediction self = Ok (Some cached, self)) as Hhit.
  { unfold get_pattern_prediction.
    destruct (Z.ltb_spec (len (move_history self)) (window_size self)); [lia|].
    unfold current_key in Hkey. by rewrite Hkey. }
  split_and!; [done | | | done |].
  - induction n as [|n IH]; simpl; [done|].
    rewrite Hhit. simpl. by rewrite IH.
  - intros d p d' key v (_ & _ & _ & Hsub)%get_pattern_prediction_extends Hv.
    eapply lookup_weaken; [exact Hv | exact Hsub].
  - intros w w' key v Hsteps.
    induction Hsteps as [|x y z (r & s & cm & rn & out & Hround) _ IH];
      [done|].
    intros Hv. apply IH. apply play_round_cache in Hround. simpl in Hround.
    eapply lookup_weaken; [exact Hv | exact Hround].
Qed.

Lemma pattern_cache_idempotent_witness :
  (window_size cached_detector ≤ len (move_history cached_detector))%Z ∧
  pattern_cache cached_detector !! current_key cached_detector = Some spock ∧
  repeated_predictions 2 cached_detector
  = Ok ([Some spock; Some spock], cached_detector).
Proof.
  assert (window_size cached_detector ≤ len (move_history cached_detector))%Z
    as Hlen by (vm_compute; discriminate).
  assert (pattern_cache cached_detector !! current_key cached_detector
          = Some spock) as Hkey by (by vm_compute).
  destruct (pattern_cache_idempotent cached_detector spock 2 Hlen Hkey)
    as (_ & Hrepeat & _).
  by split_and!.
Defined.

(** ** The cycling opponent *)

Lemma cycle_moves_S (n : nat) :
  cycle_moves (S n) = cycle_moves n ++ [nth (n mod 5) MOVES rock].
Proof. unfold cycle_moves. by rewrite seq_S, map_app. Qed.

Lemma first_index_MOVES (i : nat) :
  i < 5 → first_index (nth i MOVES rock) MOVES = i.
Proof.
  intros Hi. do 5 (destruct i as [|i]; [done|]). lia.
Qed.

(** After [n] moves of the cycle the next position is [n] modulo 5. *)
Lemma cycle_position_cycle_moves (n : nat) :
  cycle_position (cycle_moves n) = n mod 5.
Proof.
  destruct n as [|n]; [done|].
  unfold cycle_position. rewrite cycle_moves_S, last_snoc.
  rewrite first_index_MOVES by (apply Nat.mod_upper_bound; lia).
  rewrite Nat.Div0.add_mod_idemp_l. f_equal. lia.
Qed.

(** The cycling opponent plays the entry of [MOVES] at [cycle_position],
    whatever the custom moves, the round number and the generator. *)
Lemma cycling_move (custom_moves : option (list Move)) (round_number : Z)
    (w : World) :
  opponent_move_source "cycling" custom_moves round_number w =
  Ok (nth (cycle_position (opponent_history (state (game w)))) MOVES rock, w).
Proof.
  unfold opponent_move_source.
  change (String.eqb "cycling" "random") with false.
  change (String.eqb "cycling" "repeating") with false.
  change (String.eqb "cycling" "cycling") with true. cbv iota.
  unfold mbind, M_bind, read, mret, M_ret, cycle_position.
  destruct (opponent_history (state (game w))) as [|x h]; [done|].
  destruct (getitem_neg1 (x :: h)) as (m & -> & ->); [done|].
  by destruct m.
Qed.

(** A round against the cycling opponent, in a game as it can be. *)
Lemma play_round_cycling (custom_moves : option (list Move))
    (round_number : Z) (w : World) :
  game_invariant (game w) →
  ∃ ai_move res w',
    play_round "cycling" custom_moves round_number w
    = Ok (ai_move, nth (cycle_position (opponent_history (state (game w))))
                       MOVES rock, res, w') ∧
    game_invariant (game w') ∧
    opponent_history (state (game w'))
    = opponent_history (state (game w))
      ++ [nth (cycle_position (opponent_history (state (game w)))) MOVES rock].
Proof.
  intros Hinv.
  destruct (play_round_ok "cycling" custom_moves 0 w) as ([[ai opp] res] & w' & Hround);
    [by destruct Hinv as (-> & _) | done |].
  assert (play_round "cycling" custom_moves round_number w
          = play_round "cycling" custom_moves 0 w) as ->
    by (by rewrite !play_round_eq, !cycling_move).
  pose proof (game_invariant_round _ _ _ _ _ _ Hinv Hround) as Hinv'.
  apply play_round_inv in Hround as Hparts.
  destruct Hparts as (ai' & opp' & w1 & w2 & [= -> -> ->] & Hopp & _ & _ & _ & _ & _ & Hhist).
  rewrite cycling_move in Hopp. injection Hopp as <- _.
  rewrite Hround. eauto 6.
Qed.

(** The loop of [demonstrate_game] against the cycling opponent: one more
    move of the cycle per round. *)
Lemma cycling_rounds (custom_moves : option (list Move)) (rounds : list Z) :
  ∀ (results : list Z) (w : World) (k : nat),
    game_invariant (game w) →
    opponent_history (state (game w)) = cycle_moves k →
    ∃ results' w',
      for_each
        (fun '(results, w) i =>
           '(_, _, res, w') ← play_round "cycling" custom_moves i w;
           Ok (results ++ [res], w'))
        rounds (results, w)
      = Ok (results', w') ∧
      length results' = length results + length rounds ∧
      opponent_history (state (game w')) = cycle_moves (k + length rounds).
Proof.
  induction rounds as [|i rounds IH]; intros results w k Hinv Hhist.
  - exists results, w. simpl. by rewrite !Nat.add_0_r.
  - destruct (play_round_cycling custom_moves i w Hinv)
      as (ai & res & w1 & Hround & Hinv1 & Hhist1).
    rewrite Hhist, cycle_position_cycle_moves, <- cycle_moves_S in Hhist1.
    destruct (IH (results ++ [res]) w1 (S k) Hinv1 Hhist1)
      as (results' & w' & Hloop & Hlen & Hfinal).
    exists results', w'. simpl. rewrite Hround. simpl. rewrite Hloop.
    rewrite length_app in Hlen. simpl in Hlen.
    split_and!; [done | lia |]. rewrite Hfinal. f_equal. lia.
Qed.

(** C10. On a fresh game, the cycling opponent's moves over the first 5
    rounds are rock, paper, scissors, lizard, spock: each of the 5 moves
    once, in the order of [MOVES], from its first entry. It advances one
    position per round, modulo 5: after any number [n] of rounds its moves
    are [MOVES[k mod 5]] for [k < n], whatever the generator and the custom
    moves. *)
Theorem cycling_visits_each_move (custom_moves : option (list Move))
    (r : RandomState) :
  (∃ results w',
     demonstrate_game 5 "cycling" custom_moves r = Ok (results, w') ∧
     opponent_history (state (game w'))
     = [rock; paper; scissors; lizard; spock]) ∧
  MOVES = [rock; paper; scissors; lizard; spock] ∧ NoDup MOVES ∧
  (∀ n : nat, ∃ results w',
     demonstrate_game (Z.of_nat n) "cycling" custom_moves r
     = Ok (results, w') ∧
     length results = n ∧
     opponent_history (state (game w')) = cycle_moves n ∧
     ∀ k, k < n →
          opponent_history (state (game w')) !! k = MOVES !! (k mod 5)) ∧
  (∀ w round_number,
     opponent_move_source "cycling" custom_moves round_number w
     = Ok (nth (cycle_position (opponent_history (state (game w)))) MOVES rock,
           w)) ∧
  cycle_position [] = 0 ∧
  (∀ history i m,
     MOVES !! i = Some m → cycle_position (history ++ [m]) = (i + 1) mod 5).
Proof.
  assert (∀ n : nat, ∃ results w',
            demonstrate_game (Z.of_nat n) "cycling" custom_moves r
            = Ok (results, w') ∧
            length results = n ∧
            opponent_history (state (game w')) = cycle_moves n) as Hrounds.
  { intros n. unfold demonstrate_game.
    destruct (cycling_rounds custom_moves (range (Z.of_nat n)) []
                {| rng := r; game := RPSLSGame_init |} 0)
      as (results & w' & Hloop & Hlen & Hhist);
      [apply game_invariant_init | done |].
    rewrite range_seq, length_map, length_seq in Hlen, Hhist.
    exists results, w'. by rewrite Hloop. }
  split_and!.
  - destruct (Hrounds 5) as (results & w' & Hgame & _ & Hhist). eauto.
  - done.
  - apply NoDup_MOVES.
  - intros n. destruct (Hrounds n) as (results & w' & Hgame & Hlen & Hhist).
    exists results, w'. split_and!; [done..|].
    intros k Hk. rewrite Hhist. unfold cycle_moves.
    rewrite list_lookup_fmap, lookup_seq_lt by done.
    change (Some (nth (k mod 5) MOVES rock) = MOVES !! (k mod 5)).
    assert (k mod 5 < 5) as Hmod by (apply Nat.mod_upper_bound; lia).
    revert Hmod. generalize (k mod 5). intros j Hj.
    do 5 (destruct j as [|j]; [done|]). lia.
  - intros w rn. apply cycling_move.
  - done.
  - intros history i m Hm. unfold cycle_position. rewrite last_snoc.
    assert (i < 5) as Hi by (apply lookup_lt_Some in Hm; simpl in Hm; lia).
    do 5 (destruct i as [|i]; [by injection Hm as <-|]). lia.
Qed.

(** ** More of the move and outcome model *)

(** X1. The outcome is 1, 0 or -1: a draw exactly for equal moves, a win
    exactly when the first move beats the second, a loss exactly when the
    second beats the first; every move beats two other moves. *)
Theorem get_result_trichotomy (a b : Move) :
  outcome (get_result a b) ∧
  (get_result a b = 0%Z ↔ a = b) ∧
  (get_result a b = 1%Z ↔ beats a b) ∧
  (get_result a b = (-1)%Z ↔ beats b a) ∧
  length (WINS_AGAINST a) = 2 ∧ NoDup (WINS_AGAINST a) ∧ ¬ beats a a.
Proof.
  split_and!.
  - unfold outcome. destruct a, b; vm_compute; in_list.
  - split; [|intros ->; by destruct b].
    destruct a, b; vm_compute; congruence.
  - apply get_result_win.
  - rewrite <- get_result_win. destruct a, b; vm_compute; split; congruence.
  - by destruct a.
  - destruct a; simpl; repeat (apply NoDup_cons; split; [not_in_list|]);
      apply NoDup_nil_2.
  - unfold beats. destruct a; not_in_list.
Qed.

(** ** More of the pattern detector *)

Lemma append_empty (s : string) : String.append s EmptyString = s.
Proof.
  induction s as [|c s IH]; [done|].
  change (String c (String.append s EmptyString) = String c s).
  by rewrite IH.
Qed.

Lemma pattern_key_of_cons (m : Move) (l : list Move) :
  pattern_key_of (m :: l) = String.append (move_name m) (pattern_key_of l).
Proof.
  unfold pattern_key_of, join. destruct l as [|m' l]; simpl.
  - by rewrite append_empty.
  - done.
Qed.

(** The names of the moves are a prefix code. *)
Lemma move_name_prefix (m1 m2 : Move) (s1 s2 : string) :
  String.append (move_name m1) s1 = String.append (move_name m2) s2 →
  m1 = m2 ∧ s1 = s2.
Proof. destruct m1, m2; simpl; intros [=]; by subst. Qed.

(** Equal keys come from equal lists of moves. *)
Lemma pattern_key_of_inj (l1 l2 : list Move) :
  pattern_key_of l1 = pattern_key_of l2 → l1 = l2.
Proof.
  revert l2.
  induction l1 as [|m1 l1 IH]; intros [|m2 l2]; [done | | |].
  - rewrite pattern_key_of_cons. by destruct m2.
  - rewrite pattern_key_of_cons. by destruct m1.
  - rewrite !pattern_key_of_cons. intros [-> Hrest]%move_name_prefix.
    by rewrite (IH l2 Hrest).
Qed.

(** X2. The cache key determines the moves it was made from, whatever
    their number: two windows have the same key only if they are the same
    moves, so two patterns never share a cache entry. The key of no moves is
    the empty string. *)
Theorem pattern_key_injective (l1 l2 : list Move) :
  (pattern_key_of l1 = pattern_key_of l2 ↔ l1 = l2) ∧
  (pattern_key_of l1 = EmptyString ↔ l1 = []).
Proof.
  split.
  - split; [apply pattern_key_of_inj | by intros ->].
  - split; [|by intros ->].
    intros Hkey. by apply (pattern_key_of_inj l1 []).
Qed.

Lemma last_entries_length_min {A} (n : nat) (l : list A) :
  length (last_entries n l) = n `min` length l.
Proof. unfold last_entries. rewrite length_drop. lia. Qed.

(** X3. [add_move] on a window of at most 50 moves keeps the last 50 of the
    old moves and the new one: the new move is the newest entry, the length
    grows by one up to 50 and then stays, and nothing else in the detector
    changes. *)
Theorem add_move_window (move : Move) (self : PatternDetector) :
  length (move_history self) ≤ 50 →
  move_history (add_move move self)
  = last_entries 50 (move_history self ++ [move]) ∧
  length (move_history (add_move move self))
  = (length (move_history self) + 1) `min` 50 ∧
  last (move_history (add_move move self)) = Some move ∧
  (length (move_history self) < 50 →
   move_history (add_move move self) = move_history self ++ [move]) ∧
  (length (move_history self) = 50 →
   move_history (add_move move self) = drop 1 (move_history self) ++ [move]) ∧
  window_size (add_move move self) = window_size self ∧
  frequency_threshold (add_move move self) = frequency_threshold self ∧
  pattern_cache (add_move move self) = pattern_cache self.
Proof.
  intros Hlen. set (l := move_history self) in *.
  assert (move_history (add_move move self) = last_entries 50 (l ++ [move]))
    as Heq.
  { simpl. fold l. unfold deque_append, last_entries.
    rewrite length_app. simpl.
    destruct (Nat.ltb_spec 50 (length l + 1)).
    - by replace (length l + 1 - 50) with 1 by lia.
    - by replace (length l + 1 - 50) with 0 by lia. }
  rewrite Heq. split_and!; try done.
  - rewrite last_entries_length_min, length_app. cbn [length]. lia.
  - unfold last_entries. rewrite length_app. simpl.
    rewrite drop_app_le by lia. apply last_snoc.
  - intros Hlt. unfold last_entries. rewrite length_app. simpl.
    by replace (length l + 1 - 50) with 0 by lia.
  - intros H50. unfold last_entries. rewrite length_app. simpl.
    replace (length l + 1 - 50) with 1 by lia.
    rewrite drop_app_le by lia. done.
Qed.

Lemma add_move_window_witness :
  length (move_history full_window_detector) ≤ 50 ∧
  move_history (add_move paper full_window_detector)
  = replicate 49 rock ++ [paper].
Proof.
  assert (length (move_history full_window_detector) ≤ 50) as Hlen
    by (vm_compute; lia).
  split; [done|].
  destruct (add_move_window paper full_window_detector Hlen)
    as (_ & _ & _ & _ & Hfull & _).
  by rewrite Hfull.
Defined.

(** X4. A prediction of [get_pattern_prediction] is repeated by the next
    call: whether it came from the cache or from a scan that stored it, a
    second call on the detector as the first one left it returns the same
    move and changes nothing. *)
Theorem pattern_prediction_repeats (self self' : PatternDetector) (p : Move) :
  get_pattern_prediction self = Ok (Some p, self') →
  get_pattern_prediction self' = Ok (Some p, self') ∧
  pattern_cache self' !! current_key self' = Some p ∧
  current_key self' = current_key self.
Proof.
  unfold get_pattern_prediction, current_key.
  destruct (len (move_history self) <? window_size self)%Z eqn:Hlen; [done|].
  destruct (pattern_cache self !! _) as [v|] eqn:Hkey.
  - intros [= -> <-]. by rewrite Hlen, Hkey.
  - destruct (for_each _ _ _) as [[|x occ]|e]; simpl; [done| |done].
    destruct (most_common_key _) as [m|e]; simpl; [|done].
    intros [= -> <-]. simpl. by rewrite Hlen, lookup_insert_eq.
Qed.

Lemma pattern_prediction_repeats_witness :
  get_pattern_prediction repeating_detector
  = Ok (Some rock,
        set_pattern_cache (<["rockpaperscissors"%string := rock]> ∅)
                          repeating_detector) ∧
  get_pattern_prediction
    (set_pattern_cache (<["rockpaperscissors"%string := rock]> ∅)
                       repeating_detector)
  = Ok (Some rock,
        set_pattern_cache (<["rockpaperscissors"%string := rock]> ∅)
                          repeating_detector).
Proof.
  assert (get_pattern_prediction repeating_detector
          = Ok (Some rock,
                set_pattern_cache (<["rockpaperscissors"%string := rock]> ∅)
                                  repeating_detector)) as Hfirst
    by (by vm_compute).
  split; [done|].
  by destruct (pattern_prediction_repeats _ _ _ Hfirst) as [Hsecond _].
Defined.

(** X5. A prediction that does not come from the cache is a move of the
    window: for a positive window size [w], it stands right after an earlier
    occurrence of the last [w] moves, so the window holds more than [w]
    moves. *)
Theorem pattern_prediction_from_window (self self' : PatternDetector)
    (p : Move) :
  (0 < window_size self)%Z →
  pattern_cache self !! current_key self = None →
  get_pattern_prediction self = Ok (Some p, self') →
  let w := Z.to_nat (window_size self) in
  let l := move_history self in
  (∃ i, i + w < length l ∧
        take w (drop i l) = last_entries w l ∧ l !! (i + w) = Some p) ∧
  p ∈ l ∧ w < length l.
Proof.
  intros Hw Hmiss Hp w l. unfold current_key in Hmiss.
  rewrite slice_last in Hmiss by done.
  rewrite get_pattern_prediction_eq in Hp by done. fold w l in Hp, Hmiss.
  destruct (_ <? _); [done|]. rewrite Hmiss in Hp.
  destruct (followers w l) as [|x occ] eqn:Hocc; [done|].
  destruct (most_common_key_spec (x :: occ)) as (m & Hm & Hin & _); [done|].
  rewrite Hm in Hp. injection Hp as -> _.
  rewrite <- Hocc in Hin. apply elem_of_followers in Hin as (i & Heq & Hi).
  pose proof (lookup_lt_Some _ _ _ Hi).
  split_and!; [by exists i | by eapply list_elem_of_lookup_2 | lia].
Qed.

Lemma pattern_prediction_from_window_witness :
  (0 < window_size repeating_detector)%Z ∧
  pattern_cache repeating_detector !! current_key repeating_detector = None ∧
  rock ∈ move_history repeating_detector.
Proof.
  assert (get_pattern_prediction repeating_detector
          = Ok (Some rock,
                set_pattern_cache (<["rockpaperscissors"%string := rock]> ∅)
                                  repeating_detector)) as Hp
    by (by vm_compute).
  assert (pattern_cache repeating_detector !! current_key repeating_detector
          = None) as Hmiss by (by vm_compute).
  assert (0 < window_size repeating_detector)%Z as Hw by done.
  split_and!; [done | done |].
  exact (proj1 (proj2 (pattern_prediction_from_window _ _ _ Hw Hmiss Hp))).
Defined.

(** X6. A detector made with a negative window size below minus the length
    of its window raises [IndexError] when asked for a prediction, unless the
    empty key is cached: the scan indexes the window at [0 + window_size]. *)
Theorem negative_window_size_raises (self : PatternDetector) :
  (window_size self < - len (move_history self))%Z →
  pattern_cache self !! EmptyString = None →
  get_pattern_prediction self = Raise IndexError.
Proof.
  intros Hw Hmiss. unfold get_pattern_prediction.
  set (l := move_history self) in *. unfold len in *.
  destruct (Z.ltb_spec (Z.of_nat (length l)) (window_size self)); [lia|].
  assert (slice l (Some (- window_size self)%Z) None = []) as ->.
  { unfold slice, clip, len.
    destruct (Z.ltb_spec (- window_size self) 0); [lia|].
    rewrite Z.min_r by lia. rewrite Nat2Z.id, drop_all. by rewrite take_nil. }
  change (pattern_key_of []) with EmptyString. rewrite Hmiss.
  unfold range.
  destruct (Z.to_nat (Z.of_nat (length l) - window_size self)) as [|k] eqn:Hk;
    [lia|].
  assert (scan_step self [] [] 0 = Raise IndexError) as Hstep.
  { unfold scan_step. fold l.
    assert (slice l (Some 0%Z) (Some (0 + window_size self)%Z) = []) as ->.
    { unfold slice, clip, len. simpl (0 <? 0)%Z. cbv iota.
      destruct (Z.ltb_spec (0 + window_size self) 0); [|lia].
      rewrite Z.max_l by lia. by rewrite Z.min_l by lia. }
    rewrite bool_decide_eq_true_2 by done. unfold len.
    destruct (Z.ltb_spec (0 + window_size self) (Z.of_nat (length l))); [|lia].
    simpl. unfold getitem, len.
    destruct (Z.ltb_spec (0 + window_size self) 0); [|lia].
    by destruct (Z.ltb_spec (0 + window_size self + Z.of_nat (length l)) 0);
      [|lia]. }
  simpl. change (Z.of_nat 0) with 0%Z. by rewrite Hstep.
Qed.

Lemma negative_window_size_raises_witness :
  (window_size negative_window_detector
   < - len (move_history negative_window_detector))%Z ∧
  get_pattern_prediction negative_window_detector = Raise IndexError.
Proof.
  split; [done|].
  by apply negative_window_size_raises.
Defined.

(** X7. [get_pattern_prediction] never raises when the window size is not
    negative. It predicts nothing while the window holds no more moves than
    the window size and nothing is cached for them, and a call changes
    nothing but the cache, to which it can only add a key. *)
Theorem pattern_prediction_never_raises (self : PatternDetector) :
  (0 ≤ window_size self)%Z →
  ∃ p self',
    get_pattern_prediction self = Ok (p, self') ∧
    window_size self' = window_size self ∧
    frequency_threshold self' = frequency_threshold self ∧
    move_history self' = move_history self ∧
    (∀ key v, pattern_cache self !! key = Some v →
              pattern_cache self' !! key = Some v) ∧
    (p = None → self' = self) ∧
    ((len (move_history self) ≤ window_size self)%Z →
     pattern_cache self !! current_key self = None → p = None).
Proof.
  intros Hw.
  destruct (get_pattern_prediction_ok self Hw)
    as (p & self' & Hp & (Hw' & Hthr & Hmh & Hsub) & Hnone).
  exists p, self'. split_and!; try done.
  - intros key v Hv. eapply lookup_weaken; [exact Hv | exact Hsub].
  - intros Hshort Hmiss. revert Hp. unfold get_pattern_prediction.
    destruct (_ <? _)%Z; [by intros [= <- _]|].
    unfold current_key in Hmiss. rewrite Hmiss, scan_collects by done.
    replace (length (move_history self) - Z.to_nat (window_size self))
      with 0 by (unfold len in Hshort; lia).
    by intros [= <- _].
Qed.

Lemma pattern_prediction_never_raises_witness :
  (0 ≤ window_size zero_window_detector)%Z ∧
  ∃ p self', get_pattern_prediction zero_window_detector = Ok (p, self').
Proof.
  split; [done|].
  destruct (pattern_prediction_never_raises zero_window_detector)
    as (p & self' & Hp & _); [done | eauto].
Defined.

(** ** More of the frequency bias *)

(** X8. [get_frequency_bias] never raises, whatever the threshold and the
    window: on an empty window it predicts nothing, and a move it predicts
    is a move of the window whose share passed the test. *)
Theorem frequency_bias_never_raises (self : PatternDetector) :
  ∃ prediction,
    get_frequency_bias self = Ok prediction ∧
    (move_history self = [] → prediction = None) ∧
    (∀ m, prediction = Some m →
          m ∈ move_history self ∧
          share_reaches (frequency_threshold self)
                        (occurrences m (move_history self))
                        (length (move_history self)) = true).
Proof.
  rewrite get_frequency_bias_find. eexists. split_and!; [done | |].
  - by intros ->.
  - intros m [Hin Hm]%find_some.
    by rewrite <- list_elem_of_In, elem_of_first_seen in Hin.
Qed.

(** X9. With the default threshold, on a window of at most 50 moves, Tier 2
    predicts [m] exactly when [m] occurs in the window, ten times its count
    is at least three times the window's length, and that is so of no move
    first encountered before [m]; it predicts nothing exactly when that is
    so of no move of the window. *)
Theorem frequency_bias_first_reaching (self : PatternDetector) :
  frequency_threshold self = default_frequency_threshold →
  length (move_history self) ≤ 50 →
  let l := move_history self in
  (∀ m, get_frequency_bias self = Ok (Some m) ↔
        m ∈ l ∧ 3 * length l ≤ 10 * occurrences m l ∧
        ∀ x, first_index x l < first_index m l →
             10 * occurrences x l < 3 * length l) ∧
  (get_frequency_bias self = Ok None ↔
   ∀ x, x ∈ l → 10 * occurrences x l < 3 * length l).
Proof.
  intros Hthr Hlen l. rewrite get_frequency_bias_default by done. fold l.
  assert (∀ x, three_tenths l x = true ↔ 3 * length l ≤ 10 * occurrences x l)
    as Htrue by (intros x; apply Nat.leb_le).
  assert (∀ x, three_tenths l x = false ↔ 10 * occurrences x l < 3 * length l)
    as Hfalse by (intros x; unfold three_tenths; rewrite Nat.leb_gt; lia).
  split.
  - intros m. split.
    + intros [= Hfind]. pose proof Hfind as [Hin _]%find_some.
      rewrite <- list_elem_of_In, elem_of_first_seen in Hin.
      apply find_first_seen in Hfind as [Hm Hall]; [|done].
      split_and!; [done | by apply Htrue |].
      intros x Hx. by apply Hfalse, Hall.
    + intros (Hin & Hm & Hall). f_equal. apply find_first_seen; [done|].
      split; [by apply Htrue|]. intros x Hx. by apply Hfalse, Hall.
  - split.
    + intros [= Hfind] x Hx. apply Hfalse.
      apply (find_none _ _ Hfind x).
      by rewrite <- list_elem_of_In, elem_of_first_seen.
    + intros Hall. f_equal.
      destruct (find _ _) as [m|] eqn:Hfind; [|done].
      apply find_some in Hfind as [Hin Hm].
      rewrite <- list_elem_of_In, elem_of_first_seen in Hin.
      apply Hall, Hfalse in Hin. congruence.
Qed.

Lemma frequency_bias_first_reaching_witness :
  frequency_threshold paper_first_detector = default_frequency_threshold ∧
  length (move_history paper_first_detector) ≤ 50 ∧
  (get_frequency_bias paper_first_detector = Ok (Some rock) ↔
   rock ∈ move_history paper_first_detector ∧
   3 * length (move_history paper_first_detector)
   ≤ 10 * occurrences rock (move_history paper_first_detector) ∧
   ∀ x, first_index x (move_history paper_first_detector)
        < first_index rock (move_history paper_first_detector) →
        10 * occurrences x (move_history paper_first_detector)
        < 3 * length (move_history paper_first_detector)).
Proof.
  assert (length (move_history paper_first_detector) ≤ 50) as Hlen
    by (vm_compute; lia).
  split_and!; [done | done |].
  exact (proj1 (frequency_bias_first_reaching paper_first_detector
                  eq_refl Hlen) rock).
Defined.

(** ** More of the predictor *)

(** [get_ai_move] draws once and leaves the game to the pattern match. *)
Lemma get_ai_move_draws (w w' : World) (ai_move : Move) :
  get_ai_move w = Ok (ai_move, w') →
  rng w' = advance (rng w) ∧ state (game w') = state (game w) ∧
  ∃ p, get_pattern_prediction (pattern_detector (game w))
       = Ok (p, pattern_detector (game w')).
Proof.
  rewrite get_ai_move_chain.
  destruct (get_pattern_prediction _) as [[p d]|e] eqn:Hp; [|by destruct e].
  assert (∀ m, get_counter_move m (set_detector d w) = Ok (ai_move, w') →
               rng w' = advance (rng w) ∧ state (game w') = state (game w) ∧
               ∃ p', Ok (p, d) = Ok (p', pattern_detector (game w')))
    as Hcounter.
  { intros m Hm. destruct (get_counter_move_spec m (set_detector d w))
      as (c & Hc & _). rewrite Hc in Hm. injection Hm as _ <-. eauto. }
  destruct p as [p|]; [by eauto|].
  destruct (get_frequency_bias d) as [[f|]|e]; [by eauto| |done].
  destruct (opponent_history _) as [|x h].
  - intros Hm. destruct (random_choice_MOVES (set_detector d w))
      as (c & _ & Hc). rewrite Hc in Hm. injection Hm as _ <-. eauto.
  - destruct (most_common_key _); [by eauto|done].
Qed.

(** X10. A call of [get_ai_move] that returns has drawn exactly once from
    the random generator, has left both histories and the window alone, and
    has left the detector as [get_pattern_prediction] leaves it. *)
Theorem get_ai_move_effects (w w' : World) (ai_move : Move) :
  get_ai_move w = Ok (ai_move, w') →
  rng w' = advance (rng w) ∧
  state (game w') = state (game w) ∧
  move_history (pattern_detector (game w'))
  = move_history (pattern_detector (game w)) ∧
  ∃ p, get_pattern_prediction (pattern_detector (game w))
       = Ok (p, pattern_detector (game w')).
Proof.
  intros (Hr & Hs & p & Hp)%get_ai_move_draws.
  split_and!; [done | done | | by exists p].
  by apply get_pattern_prediction_extends in Hp as (_ & _ & -> & _).
Qed.

Lemma get_ai_move_effects_witness :
  ∃ ai_move w',
    get_ai_move (at_prediction rock (new_game (fun n => n))) = Ok (ai_move, w') ∧
    rng w' = advance (rng (at_prediction rock (new_game (fun n => n)))).
Proof.
  assert (get_ai_move (at_prediction rock (new_game (fun n => n)))
          = Ok (paper, {| rng := advance (fun n => n);
                          game := game (at_prediction rock
                                          (new_game (fun n => n))) |})) as Hai
    by (by vm_compute).
  eexists _, _. split; [exact Hai|].
  exact (proj1 (get_ai_move_effects _ _ _ Hai)).
Defined.

(** ** More of the rounds *)

(** [l[i]] for a negative index: from the end while in range. *)
Lemma getitem_negative {A} (l : list A) (i : Z) :
  (i < 0)%Z →
  getitem l i =
  if (i + len l <? 0)%Z then Raise IndexError
  else match l !! Z.to_nat (i + len l) with
       | Some x => Ok x
       | None => Raise IndexError
       end.
Proof.
  intros Hi. unfold getitem. by destruct (Z.ltb_spec i 0); [|lia].
Qed.

(** The opponent's move is either drawn from [MOVES] or computed without
    the generator. *)
Lemma opponent_move_source_shape (opponent_strategy : string)
    (custom_moves : option (list Move)) (round_number : Z) (w : World) :
  opponent_move_source opponent_strategy custom_moves round_number w
  = random_choice MOVES w ∨
  ∃ r : result Move,
    opponent_move_source opponent_strategy custom_moves round_number w
    = lift r w.
Proof.
  unfold opponent_move_source.
  destruct (String.eqb _ "random"); [by left|].
  destruct (String.eqb _ "repeating").
  { unfold mbind, M_bind, read.
    destruct (opponent_history _); [by left | right; eauto]. }
  destruct (String.eqb _ "cycling").
  { right. unfold mbind, M_bind, read, mret, M_ret.
    destruct (opponent_history _) as [|x h]; [by exists (getitem MOVES 0)|].
    exists (last_move ← getitem (x :: h) (-1);
            i ← index MOVES last_move;
            getitem MOVES ((i + 1) `mod` len MOVES)%Z).
    unfold lift at 1 4. destruct (getitem (x :: h) (-1)) as [m|]; [|done].
    by destruct m. }
  destruct (String.eqb _ "custom"); [|by left].
  destruct custom_moves as [[|c cs]|]; [by left| |by left].
  destruct (_ <? _)%Z; [right; eauto | by left].
Qed.

(** The opponent's move leaves the game alone and draws at most once. *)
Lemma opponent_move_source_effects (opponent_strategy : string)
    (custom_moves : option (list Move)) (round_number : Z) (w w1 : World)
    (opponent_move : Move) :
  opponent_move_source opponent_strategy custom_moves round_number w
  = Ok (opponent_move, w1) →
  game w1 = game w ∧ (rng w1 = rng w ∨ rng w1 = advance (rng w)).
Proof.
  destruct (opponent_move_source_shape opponent_strategy custom_moves
              round_number w) as [-> | [r ->]].
  - destruct (random_choice_MOVES w) as (m & _ & ->).
    intros [= _ <-]. auto.
  - unfold lift. destruct r; [|done]. intros [= _ <-]. auto.
Qed.

(** Only the custom strategy reads the round number. *)
Lemma opponent_move_source_round_number (opponent_strategy : string)
    (custom_moves : option (list Move)) (round_number : Z) (w : World) :
  opponent_strategy ≠ "custom"%string →
  opponent_move_source opponent_strategy custom_moves round_number w
  = opponent_move_source opponent_strategy custom_moves 0 w.
Proof.
  intros Hs%String.eqb_neq. unfold opponent_move_source. by rewrite Hs.
Qed.

(** The custom strategy, by cases of the list and the round number. *)
Lemma custom_source_eq (custom_moves : option (list Move)) (round_number : Z)
    (w : World) :
  opponent_move_source "custom" custom_moves round_number w =
  match custom_moves with
  | Some ((_ :: _) as moves) =>
      if (round_number <? len moves)%Z then lift (getitem moves round_number) w
      else random_choice MOVES w
  | Some [] | None => random_choice MOVES w
  end.
Proof.
  unfold opponent_move_source.
  change (String.eqb "custom" "random") with false.
  change (String.eqb "custom" "repeating") with false.
  change (String.eqb "custom" "cycling") with false.
  change (String.eqb "custom" "custom") with true. cbv iota.
  destruct custom_moves as [[|c cs]|]; [done| |done].
  by destruct (_ <? _)%Z.
Qed.

(** X11. The custom opponent: without a list, with an empty list, or at a
    round number from the length of the list on, it draws from [MOVES]; at
    a round number [k] below the length it plays entry [k] of the list; at a
    negative round number it plays the entry counted from the end of the
    list, as Python indexes, and below minus the length [IndexError] is
    raised. It never uses the generator when it plays from the list. *)
Theorem custom_move_source (custom_moves : option (list Move))
    (round_number : Z) (w : World) :
  (custom_moves = None ∨ custom_moves = Some [] ∨
   (∃ moves, custom_moves = Some moves ∧ (len moves ≤ round_number)%Z) →
   opponent_move_source "custom" custom_moves round_number w
   = random_choice MOVES w) ∧
  (∀ moves (k : nat) m,
     custom_moves = Some moves → moves !! k = Some m →
     round_number = Z.of_nat k →
     opponent_move_source "custom" custom_moves round_number w = Ok (m, w)) ∧
  (∀ moves (k : nat) m,
     custom_moves = Some moves → moves !! k = Some m →
     round_number = (Z.of_nat k - len moves)%Z →
     opponent_move_source "custom" custom_moves round_number w = Ok (m, w)) ∧
  (∀ moves,
     custom_moves = Some moves → moves ≠ [] →
     (round_number < - len moves)%Z →
     opponent_move_source "custom" custom_moves round_number w
     = Raise IndexError).
Proof.
  rewrite custom_source_eq. split_and!.
  - intros [-> | [-> | (moves & -> & Hrn)]]; [done | done |].
    destruct moves as [|c cs]; [done|].
    by destruct (Z.ltb_spec round_number (len (c :: cs))); [lia|].
  - intros moves k m -> Hm ->. pose proof (lookup_lt_Some _ _ _ Hm) as Hk.
    destruct moves as [|c cs]; [done|].
    destruct (Z.ltb_spec (Z.of_nat k) (len (c :: cs)));
      [|unfold len in *; lia].
    by rewrite getitem_lookup, Hm.
  - intros moves k m -> Hm ->. pose proof (lookup_lt_Some _ _ _ Hm) as Hk.
    destruct moves as [|c cs]; [done|].
    destruct (Z.ltb_spec (Z.of_nat k - len (c :: cs)) (len (c :: cs)));
      [|unfold len in *; lia].
    rewrite getitem_negative by (unfold len; lia).
    destruct (Z.ltb_spec (Z.of_nat k - len (c :: cs) + len (c :: cs)) 0);
      [lia|].
    replace (Z.to_nat (Z.of_nat k - len (c :: cs) + len (c :: cs)))
      with k by lia.
    by rewrite Hm.
  - intros moves -> Hne Hrn. destruct moves as [|c cs]; [done|].
    pose proof (Nat2Z.is_nonneg (length (c :: cs))).
    destruct (Z.ltb_spec round_number (len (c :: cs)));
      [|unfold len in *; lia].
    rewrite getitem_negative by (unfold len in *; lia).
    by destruct (Z.ltb_spec (round_number + len (c :: cs)) 0); [|lia].
Qed.

(** When the opponent's move raises. *)
Lemma opponent_move_source_raises (opponent_strategy : string)
    (custom_moves : option (list Move)) (round_number : Z) (w : World)
    (e : exn) :
  opponent_move_source opponent_strategy custom_moves round_number w = Raise e ↔
  e = IndexError ∧ opponent_strategy = "custom"%string ∧
  ∃ moves, custom_moves = Some moves ∧ moves ≠ [] ∧
           (round_number < - len moves)%Z.
Proof.
  split.
  - intros Hraise.
    destruct (decide (opponent_strategy = "custom"%string)) as [->|Hs].
    + rewrite custom_source_eq in Hraise.
      assert (random_choice MOVES w ≠ Raise e) as Hrandom.
      { by destruct (random_choice_MOVES w) as (m & _ & ->). }
      destruct custom_moves as [[|c cs]|]; [done| |done].
      destruct (Z.ltb_spec round_number (len (c :: cs))); [|done].
      destruct (Z.ltb_spec round_number 0) as [Hneg|Hpos].
      * rewrite getitem_negative in Hraise by done.
        destruct (Z.ltb_spec (round_number + len (c :: cs)) 0) as [Hlow|Hin].
        -- injection Hraise as <-. split_and!; [done | done |].
           exists (c :: cs). split_and!; [done | done | lia].
        -- destruct (lookup_lt_is_Some_2 (c :: cs)
                       (Z.to_nat (round_number + len (c :: cs)))) as [m Hm];
             [unfold len in *; lia|].
           by rewrite Hm in Hraise.
      * rewrite <- (Z2Nat.id round_number) in Hraise by done.
        rewrite getitem_lookup in Hraise.
        destruct (lookup_lt_is_Some_2 (c :: cs) (Z.to_nat round_number))
          as [m Hm]; [unfold len in *; lia|].
        by rewrite Hm in Hraise.
    + rewrite opponent_move_source_round_number in Hraise by done.
      destruct (opponent_move_source_ok opponent_strategy custom_moves 0 w)
        as (m & w1 & Hok); [done|].
      by rewrite Hok in Hraise.
  - intros (-> & -> & moves & -> & Hne & Hrn).
    rewrite custom_source_eq. destruct moves as [|c cs]; [done|].
    pose proof (Nat2Z.is_nonneg (length (c :: cs))).
    destruct (Z.ltb_spec round_number (len (c :: cs)));
      [|unfold len in *; lia].
    rewrite getitem_negative by (unfold len in *; lia).
    by destruct (Z.ltb_spec (round_number + len (c :: cs)) 0); [|lia].
Qed.

(** X12. In a game whose window size is not negative (as in every game
    [RPSLSGame()] makes), [play_round] raises in one case only: the custom
    strategy with a list that is not empty and a round number below minus
    its length, where indexing the list raises [IndexError]. *)
Theorem play_round_raises_iff (opponent_strategy : string)
    (custom_moves : option (list Move)) (round_number : Z) (w : World)
    (e : exn) :
  (0 ≤ window_size (pattern_detector (game w)))%Z →
  play_round opponent_strategy custom_moves round_number w = Raise e ↔
  e = IndexError ∧ opponent_strategy = "custom"%string ∧
  ∃ moves, custom_moves = Some moves ∧ moves ≠ [] ∧
           (round_number < - len moves)%Z.
Proof.
  intros Hw. rewrite <- opponent_move_source_raises with (w := w).
  rewrite play_round_eq.
  destruct (opponent_move_source _ _ _ w) as [[opp w1]|e'] eqn:Hopp;
    [|by split; intros [= ->]].
  apply opponent_move_source_effects in Hopp as [Hgame _].
  destruct (get_ai_move_ok (at_prediction opp w1)) as (ai & w2 & ->);
    [simpl; by rewrite Hgame | by split].
Qed.

Lemma play_round_raises_iff_witness :
  (0 ≤ window_size (pattern_detector (game (new_game (fun _ => 0%nat)))))%Z ∧
  play_round "custom" (Some [rock; paper]) (-3) (new_game (fun _ => 0%nat))
  = Raise IndexError.
Proof.
  assert (0 ≤ window_size (pattern_detector (game (new_game (fun _ => 0%nat)))))%Z
    as Hw by done.
  split; [done|].
  apply (play_round_raises_iff "custom" (Some [rock; paper]) (-3)
           (new_game (fun _ => 0%nat)) IndexError Hw).
  split_and!; [done | done |]. exists [rock; paper]. by split_and!.
Defined.

(** X13. A round that returns has appended the two moves it returns to the
    two histories and the opponent's move to the window, has scored them
    with [get_result], has kept the detector's parameters and every cache
    entry, and has drawn once or twice from the generator. *)
Theorem play_round_bookkeeping (opponent_strategy : string)
    (custom_moves : option (list Move)) (round_number : Z) (w w' : World)
    (ai_move opponent_move : Move) (res : Z) :
  play_round opponent_strategy custom_moves round_number w
  = Ok (ai_move, opponent_move, res, w') →
  res = get_result ai_move opponent_move ∧ outcome res ∧
  player_history (state (game w'))
  = player_history (state (game w)) ++ [ai_move] ∧
  opponent_history (state (game w'))
  = opponent_history (state (game w)) ++ [opponent_move] ∧
  move_history (pattern_detector (game w'))
  = deque_append 50 (move_history (pattern_detector (game w)))
                 opponent_move ∧
  window_size (pattern_detector (game w'))
  = window_size (pattern_detector (game w)) ∧
  frequency_threshold (pattern_detector (game w'))
  = frequency_threshold (pattern_detector (game w)) ∧
  (∀ key v, pattern_cache (pattern_detector (game w)) !! key = Some v →
            pattern_cache (pattern_detector (game w')) !! key = Some v) ∧
  (rng w' = advance (rng w) ∨ rng w' = advance (advance (rng w))).
Proof.
  intros Hround. pose proof Hround as Hinv.
  apply play_round_inv in Hinv
    as (ai & opp & w1 & w2 & [= <- <- ->] & _ & _ & _ & _ & Hext & Hph & Hoh).
  destruct Hext as (Hw & Hthr & Hmh & Hsub).
  split_and!; try done.
  - unfold outcome. destruct ai_move, opponent_move; vm_compute; in_list.
  - intros key v Hv. eapply lookup_weaken; [exact Hv | exact Hsub].
  - rewrite play_round_eq in Hround.
    destruct (opponent_move_source _ _ _ w) as [[opp' w1']|] eqn:Hopp;
      [|done].
    destruct (get_ai_move _) as [[ai' w2']|] eqn:Hai; [|done].
    injection Hround as _ _ _ <-.
    apply opponent_move_source_effects in Hopp as [_ Hr1].
    apply get_ai_move_draws in Hai as [Hr2 _]. simpl in *.
    rewrite Hr2. by destruct Hr1 as [-> | ->]; [left | right].
Qed.

Lemma play_round_bookkeeping_witness :
  play_round "cycling" None 0 (new_game (fun n => n))
  = Ok (paper, rock, 1%Z,
        set_state {| player_history := [paper]; opponent_history := [rock] |}
          (set_detector (add_move rock PatternDetector_default)
             {| rng := advance (fun n => n); game := RPSLSGame_init |})) ∧
  1%Z = get_result paper rock.
Proof.
  assert (play_round "cycling" None 0 (new_game (fun n => n))
          = Ok (paper, rock, 1%Z,
                set_state
                  {| player_history := [paper]; opponent_history := [rock] |}
                  (set_detector (add_move rock PatternDetector_default)
                     {| rng := advance (fun n => n);
                        game := RPSLSGame_init |}))) as Hround
    by (by vm_compute).
  split; [done|].
  exact (proj1 (play_round_bookkeeping _ _ _ _ _ _ _ _ Hround)).
Defined.

(** ** The first round *)

(** C6, as the code has it. In a fresh game the first call of [play_round]
    is a win for the predictor, for every opponent strategy, every custom
    move list, every round number and every state of the random generator,
    but for one case, in which it raises [IndexError] before any move is
    made: the strategy is "custom", the custom move list is not empty and
    the round number is below minus its length, so that
    [custom_moves[round_number]] is out of range. In every other case the
    window holds just the opponent's move when the predictor runs, Tier 2
    predicts that move, and the counter-move drawn beats it. *)
Theorem first_round_wins (opponent_strategy : string)
    (custom_moves : option (list Move)) (round_number : Z) (r : RandomState) :
  let index_out_of_range :=
    opponent_strategy = "custom"%string ∧
    ∃ moves, custom_moves = Some moves ∧ moves ≠ [] ∧
             (round_number < - len moves)%Z in
  let first_round :=
    play_round opponent_strategy custom_moves round_number (new_game r) in
  (index_out_of_range ∧ first_round = Raise IndexError) ∨
  (¬ index_out_of_range ∧
   ∃ ai_move opponent_move w',
     first_round = Ok (ai_move, opponent_move, 1%Z, w') ∧
     move_history (pattern_detector (game w')) = [opponent_move] ∧
     tier_fired (game (at_prediction opponent_move (new_game r)))
     = Ok FrequencyBias ∧
     get_frequency_bias (add_move opponent_move PatternDetector_default)
     = Ok (Some opponent_move) ∧
     ai_move ∈ possible_counters opponent_move).
Proof.
  intros index_out_of_range first_round. subst first_round.
  destruct (opponent_move_source opponent_strategy custom_moves round_number
              (new_game r)) as [[opp w1]|e] eqn:Hopp.
  - right. split.
    { intros [Hs Hmoves].
      assert (opponent_move_source opponent_strategy custom_moves round_number
                (new_game r) = Raise IndexError) as Hraise
        by (by apply opponent_move_source_raises).
      congruence. }
    pose proof (opponent_move_source_game _ _ _ _ _ _ Hopp) as Hgame.
    destruct (first_window opp) as [Hpattern Hbias].
    rewrite play_round_eq, Hopp, get_ai_move_chain.
    destruct w1 as [r1 g1]. simpl in Hgame. subst g1.
    change (pattern_detector
              (game (at_prediction opp (mkWorld r1 RPSLSGame_init))))
      with (add_move opp PatternDetector_default).
    rewrite Hpattern, Hbias.
    destruct (get_counter_move_spec opp
                (set_detector (add_move opp PatternDetector_default)
                   (at_prediction opp (mkWorld r1 RPSLSGame_init))))
      as (c & -> & Hc & ->).
    eexists c, opp, _. split_and!; [done | done | | done | done].
    unfold tier_fired.
    change (pattern_detector (game (at_prediction opp (new_game r))))
      with (add_move opp PatternDetector_default).
    rewrite Hpattern. unfold mbind, result_bind. by rewrite Hbias.
  - left. pose proof Hopp as Hraise.
    apply opponent_move_source_raises in Hraise as (-> & Hs & Hmoves).
    split; [done|]. by rewrite play_round_eq, Hopp.
Qed.

Lemma first_round_wins_witness :
  ∃ ai_move opponent_move w',
    play_round "cycling" None 0 (new_game (fun _ => 0))
    = Ok (ai_move, opponent_move, 1%Z, w') ∧
    move_history (pattern_detector (game w')) = [opponent_move] ∧
    tier_fired (game (at_prediction opponent_move (new_game (fun _ => 0))))
    = Ok FrequencyBias ∧
    get_frequency_bias (add_move opponent_move PatternDetector_default)
    = Ok (Some opponent_move) ∧
    ai_move ∈ possible_counters opponent_move.
Proof.
  destruct (first_round_wins "cycling" None 0 (fun _ => 0))
    as [[[Hs _] _]|[_ Hwin]]; [done | exact Hwin].
Defined.

(** A first call that is no win: with a round number below minus the length
    of the custom move list the call raises, and so returns no outcome. *)
Lemma first_round_wins_counterexample :
  play_round "custom" (Some [rock; paper]) (-3) (new_game (fun _ => 0))
  = Raise IndexError ∧
  ¬ ∃ ai_move opponent_move w',
      play_round "custom" (Some [rock; paper]) (-3) (new_game (fun _ => 0))
      = Ok (ai_move, opponent_move, 1%Z, w').
Proof.
  split; [reflexivity|]. by intros (ai_move & opponent_move & w' & Hround).
Qed.

(** ** The game loop *)

(** The first round of a fresh game is a win. *)
Lemma first_round_result (opponent_strategy : string)
    (custom_moves : option (list Move)) (round_number : Z) (r : RandomState)
    (ai_move opponent_move : Move) (res : Z) (w' : World) :
  play_round opponent_strategy custom_moves round_number
             {| rng := r; game := RPSLSGame_init |}
  = Ok (ai_move, opponent_move, res, w') →
  res = 1%Z.
Proof.
  rewrite play_round_eq.
  destruct (opponent_move_source _ _ _ _) as [[opp w1]|] eqn:Hopp; [|done].
  apply opponent_move_source_effects in Hopp as [Hgame _].
  destruct w1 as [r1 g1]. simpl in Hgame. subst g1.
  rewrite get_ai_move_chain.
  change (pattern_detector (game (at_prediction opp (mkWorld r1 RPSLSGame_init))))
    with (add_move opp PatternDetector_default).
  destruct (first_window opp) as [-> ->].
  destruct (get_counter_move_spec opp
              (set_detector (add_move opp PatternDetector_default)
                 (at_prediction opp (mkWorld r1 RPSLSGame_init))))
    as (c & -> & _ & Hwin).
  intros [= <- <- <- _]. done.
Qed.

(** The loop of [demonstrate_game] from round [k] on never raises; what
    holds before it and is kept by every round holds after it. *)
Lemma demonstrate_loop (opponent_strategy : string)
    (custom_moves : option (list Move))
    (P : nat → list Z → World → Prop) :
  (∀ k results w ai_move opponent_move res w',
     game_invariant (game w) → P k results w →
     play_round opponent_strategy custom_moves (Z.of_nat k) w
     = Ok (ai_move, opponent_move, res, w') →
     P (S k) (results ++ [res]) w') →
  ∀ n k results w,
    game_invariant (game w) → P k results w →
    ∃ results' w',
      for_each
        (fun '(results, w) i =>
           '(_, _, res, w') ← play_round opponent_strategy custom_moves i w;
           Ok (results ++ [res], w'))
        (map Z.of_nat (seq k n)) (results, w)
      = Ok (results', w') ∧
      game_invariant (game w') ∧ P (k + n) results' w'.
Proof.
  intros Hstep. induction n as [|n IH]; intros k results w Hinv HP.
  - exists results, w. by rewrite Nat.add_0_r.
  - destruct (play_round_ok opponent_strategy custom_moves (Z.of_nat k) w)
      as ([[ai opp] res] & w1 & Hround);
      [by destruct Hinv as (-> & _) | lia |].
    pose proof (game_invariant_round _ _ _ _ _ _ Hinv Hround) as Hinv1.
    pose proof (Hstep _ _ _ _ _ _ _ Hinv HP Hround) as HP1.
    destruct (IH (S k) (results ++ [res]) w1 Hinv1 HP1)
      as (results' & w' & Hloop & Hinv' & HP').
    exists results', w'. simpl. rewrite Hround. simpl. rewrite Hloop.
    split_and!; [done | done |]. by replace (k + S n) with (S k + n) by lia.
Qed.

(** [demonstrate_game] never raises; what holds of a fresh game and is
    kept by every round holds after the last one. *)
Lemma demonstrate_game_inv (rounds : Z) (opponent_strategy : string)
    (custom_moves : option (list Move)) (r : RandomState)
    (P : nat → list Z → World → Prop) :
  P 0 [] (new_game r) →
  (∀ k results w ai_move opponent_move res w',
     game_invariant (game w) → P k results w →
     play_round opponent_strategy custom_moves (Z.of_nat k) w
     = Ok (ai_move, opponent_move, res, w') →
     P (S k) (results ++ [res]) w') →
  ∃ results w',
    demonstrate_game rounds opponent_strategy custom_moves r
    = Ok (results, w') ∧
    game_invariant (game w') ∧ P (Z.to_nat rounds) results w'.
Proof.
  intros HP Hstep. unfold demonstrate_game, range.
  apply (demonstrate_loop opponent_strategy custom_moves P Hstep
           (Z.to_nat rounds) 0 [] (new_game r) game_invariant_init HP).
Qed.

Lemma outcome_get_result (a b : Move) : outcome (get_result a b).
Proof. unfold outcome. destruct a, b; vm_compute; in_list. Qed.

(** Wins, draws and losses add up to the number of results. *)
Lemma final_stats_sum (results : list Z) :
  Forall outcome results →
  occurrences 1%Z results + occurrences 0%Z results
  + occurrences (-1)%Z results = length results.
Proof.
  induction 1 as [|res results Hres _ IH]; [done|].
  cbn [occurrences length]. unfold outcome in Hres.
  assert (res = 1 ∨ res = 0 ∨ res = -1)%Z as [-> | [-> | ->]].
  { repeat (apply elem_of_cons in Hres as [->|Hres]; [auto|]).
    by apply elem_of_nil in Hres. }
  all: repeat case_decide; try done; lia.
Qed.

(** X14. [demonstrate_game] never raises, for any number of rounds (none
    are played for a number that is not positive), any strategy name and any
    custom list. It plays exactly [rounds] rounds: [results] has one outcome
    per round, the final wins, draws and losses add up to the number of
    rounds, both histories have one move per round, the rolling window is
    the last 50 moves of the opponent, and the first round is a win. *)
Theorem demonstrate_game_total (rounds : Z) (opponent_strategy : string)
    (custom_moves : option (list Move)) (r : RandomState) :
  ∃ results w',
    demonstrate_game rounds opponent_strategy custom_moves r
    = Ok (results, w') ∧
    length results = Z.to_nat rounds ∧
    Forall outcome results ∧
    (let '(total_wins, draws, losses) := final_stats results in
     total_wins + draws + losses = Z.to_nat rounds) ∧
    length (opponent_history (state (game w'))) = Z.to_nat rounds ∧
    length (player_history (state (game w'))) = Z.to_nat rounds ∧
    move_history (pattern_detector (game w'))
    = last_entries 50 (opponent_history (state (game w'))) ∧
    ((0 < rounds)%Z → results !! 0 = Some 1%Z).
Proof.
  destruct (demonstrate_game_inv rounds opponent_strategy custom_moves r
              (fun k results w =>
                 length results = k ∧ Forall outcome results ∧
                 length (opponent_history (state (game w))) = k ∧
                 (k = 0 → game w = RPSLSGame_init) ∧
                 (0 < k → results !! 0 = Some 1%Z)))
    as (results & w' & Hgame & Hinv & Hlen & Hall & Hoh & _ & Hfirst).
  - split_and!; [done | constructor | done | done | lia].
  - intros k results w ai opp res w' _ (Hlen & Hall & Hoh & Hfresh & Hfirst)
           Hround.
    pose proof Hround as Hparts. apply play_round_inv in Hparts
      as (ai' & opp' & _ & _ & [= <- <- ->] & _ & _ & _ & _ & _ & _ & Hoh').
    split_and!.
    + rewrite length_app. simpl. lia.
    + apply Forall_app. split; [done|].
      constructor; [apply outcome_get_result | constructor].
    + rewrite Hoh', length_app. simpl. lia.
    + lia.
    + intros _. destruct (decide (k = 0)) as [->|Hk].
      * destruct w as [r0 g0]. simpl in Hfresh.
        rewrite (Hfresh eq_refl) in Hround.
        apply first_round_result in Hround as ->.
        by destruct results.
      * rewrite lookup_app_l by lia. apply Hfirst. lia.
  - destruct Hinv as (_ & _ & Hmh & _ & Hph).
    exists results, w'. split_and!; try done.
    + unfold final_stats. rewrite final_stats_sum by done. done.
    + lia.
    + intros Hpos. apply Hfirst. lia.
Qed.

(** Below the length of the list the custom opponent plays from it. *)
Lemma custom_source_in_range (moves : list Move) (k : nat) (m : Move)
    (w : World) :
  moves !! k = Some m →
  opponent_move_source "custom" (Some moves) (Z.of_nat k) w = Ok (m, w).
Proof.
  intros Hm. pose proof (lookup_lt_Some _ _ _ Hm) as Hk.
  rewrite custom_source_eq. destruct moves as [|c cs]; [done|].
  destruct (Z.ltb_spec (Z.of_nat k) (len (c :: cs))); [|unfold len in *; lia].
  by rewrite getitem_lookup, Hm.
Qed.

(** X15. Against the custom opponent [demonstrate_game] replays the list:
    the opponent's moves of the first rounds are the entries of the list in
    order, for as many rounds as the list has entries; with no more rounds
    than entries the opponent's history is that prefix of the list. *)
Theorem custom_opponent_replays (n : nat) (moves : list Move)
    (r : RandomState) :
  ∃ results w',
    demonstrate_game (Z.of_nat n) "custom" (Some moves) r
    = Ok (results, w') ∧
    length (opponent_history (state (game w'))) = n ∧
    take (length moves) (opponent_history (state (game w'))) = take n moves ∧
    (n ≤ length moves → opponent_history (state (game w')) = take n moves) ∧
    (length moves ≤ n →
     take (length moves) (opponent_history (state (game w'))) = moves).
Proof.
  destruct (demonstrate_game_inv (Z.of_nat n) "custom" (Some moves) r
              (fun k results w =>
                 length (opponent_history (state (game w))) = k ∧
                 take (length moves) (opponent_history (state (game w)))
                 = take k moves))
    as (results & w' & Hgame & _ & Hlen & Hprefix).
  - split; [done | apply take_nil].
  - intros k results w ai opp res w' _ (Hlen & Hprefix) Hround.
    apply play_round_inv in Hround
      as (ai' & opp' & w1 & _ & [= <- <- ->] & Hopp & _ & _ & _ & _ & _ & Hoh).
    rewrite Hoh, length_app. split; [simpl; lia|].
    destruct (decide (k < length moves)) as [Hk|Hk].
    + destruct (lookup_lt_is_Some_2 moves k Hk) as [m Hm].
      rewrite (custom_source_in_range moves k m w Hm) in Hopp.
      injection Hopp as <- _.
      rewrite (take_S_r _ _ _ Hm), <- Hprefix.
      rewrite !take_ge; [done | lia | rewrite length_app; simpl; lia].
    + rewrite take_app_le by lia. rewrite Hprefix.
      by rewrite !take_ge by lia.
  - rewrite Nat2Z.id in Hlen, Hprefix. exists results, w'.
    split_and!; [done | done | done | |].
    + intros Hn. rewrite <- Hprefix. symmetry. apply take_ge. lia.
    + intros Hn. rewrite Hprefix. apply take_ge. lia.
Qed.

(** Every world [demonstrate_game] ends in is one a game goes through. *)
Lemma demonstrate_game_reachable (rounds : Z) (opponent_strategy : string)
    (custom_moves : option (list Move)) (r : RandomState)
    (results : list Z) (w' : World) :
  demonstrate_game rounds opponent_strategy custom_moves r
  = Ok (results, w') →
  reachable w'.
Proof.
  intros Hgame.
  destruct (demonstrate_game_inv rounds opponent_strategy custom_moves r
              (fun _ _ w => reachable w))
    as (results1 & w1 & Hgame1 & _ & Hreach).
  - exists r. apply rtc_refl.
  - intros k res w ai_move opponent_move out w2 _ [r0 Hsteps] Hround.
    exists r0. eapply rtc_r; [done|].
    exists (rng w), opponent_strategy, custom_moves, (Z.of_nat k),
      (ai_move, opponent_move, out).
    by destruct w.
  - rewrite Hgame in Hgame1. by injection Hgame1 as _ <-.
Qed.

(** ** The reporting functions: facts *)

Lemma counter_get_map {A} `{EqDecision A} (g : A → nat) (ks : list A) (x : A) :
  counter_get (map (fun k => (k, g k)) ks) x
  = if decide (x ∈ ks) then g x else 0.
Proof.
  induction ks as [|k ks IH]; simpl; [done|].
  destruct (decide (k = x)) as [->|Hne].
  - by rewrite decide_True by apply list_elem_of_here.
  - rewrite IH. destruct (decide (x ∈ ks)).
    + by rewrite decide_True by (by apply list_elem_of_further).
    + by rewrite decide_False
        by (apply not_elem_of_cons; split; [congruence | done]).
Qed.

(** [Counter(l)[x]] is the number of occurrences of [x] in [l], 0 for an
    [x] that is not in [l]. *)
Lemma counter_get_Counter {A} `{EqDecision A} (l : list A) (x : A) :
  counter_get (Counter l) x = occurrences x l.
Proof.
  rewrite Counter_first_seen, counter_get_map.
  destruct (decide (x ∈ first_seen l)) as [|Hx]; [done|].
  rewrite elem_of_first_seen in Hx. by rewrite occurrences_not_in.
Qed.

(** X16. The bars of [plot_result_distribution] are the numbers of wins,
    draws and losses that [demonstrate_game] reports, an outcome that never
    occurred giving a bar of 0; for a list of outcomes they add up to its
    length. *)
Theorem result_distribution_counts (results : list Z) :
  plot_result_distribution results
  = [occurrences 1%Z results; occurrences 0%Z results;
     occurrences (-1)%Z results] ∧
  (let '(total_wins, draws, losses) := final_stats results in
   plot_result_distribution results = [total_wins; draws; losses]) ∧
  plot_result_distribution [] = [0; 0; 0] ∧
  (Forall outcome results →
   foldr Nat.add 0 (plot_result_distribution results) = length results).
Proof.
  assert (plot_result_distribution results
          = [occurrences 1%Z results; occurrences 0%Z results;
             occurrences (-1)%Z results]) as Heq
    by (unfold plot_result_distribution; by rewrite !counter_get_Counter).
  split_and!; [done | done | done |].
  intros Hall. rewrite Heq. simpl. rewrite <- (final_stats_sum results Hall).
  lia.
Qed.

(** The loop of [plot_cumulative_win_rate] from round [k] on, after [c]
    wins. *)
Lemma win_rate_loop_closed (results : list Z) :
  ∀ (k c : nat) (win_rates : list float),
    win_rate_loop results (Z.of_nat k) (Z.of_nat c) win_rates =
    Ok (win_rates ++
        map (fun j =>
               PrimFloat.div
                 (float_of_int
                    (Z.of_nat (c + occurrences 1%Z (take (S j) results))))
                 (float_of_int (Z.of_nat (k + S j))))
            (seq 0 (length results))).
Proof.
  induction results as [|res results IH]; intros k c win_rates.
  - simpl. by rewrite app_nil_r.
  - cbn [win_rate_loop length].
    assert ((if (res =? 1)%Z then (Z.of_nat c + 1)%Z else Z.of_nat c)
            = Z.of_nat (c + occurrences 1%Z [res])) as ->.
    { cbn [occurrences]. destruct (Z.eqb_spec res 1) as [->|Hne].
      - rewrite decide_True by done. lia.
      - rewrite decide_False by done. lia. }
    replace (Z.of_nat k + 1)%Z with (Z.of_nat (S k)) by lia.
    rewrite truediv_of_nat by lia. cbn [mbind result_bind].
    rewrite IH, <- app_assoc. do 2 f_equal.
    cbn [seq map app]. f_equal.
    + change (take 1 (res :: results)) with [res].
      by replace (k + 1) with (S k) by lia.
    + rewrite <- seq_shift, map_map. apply map_ext. intros j.
      change (take (S (S j)) (res :: results))
        with ([res] ++ take (S j) results).
      rewrite occurrences_app.
      replace (k + S (S j)) with (S k + S j) by lia.
      by rewrite Nat.add_assoc.
Qed.

(** X17. [plot_cumulative_win_rate] never divides by zero: it plots one
    rate per round, and the rate of round [j + 1] is the number of wins in
    the first [j + 1] results divided, as floats, by [j + 1]. *)
Theorem cumulative_win_rates (results : list Z) :
  ∃ win_rates,
    plot_cumulative_win_rate results = Ok win_rates ∧
    length win_rates = length results ∧
    ∀ j, j < length results →
         win_rates !! j =
         Some (PrimFloat.div
                 (float_of_int
                    (Z.of_nat (occurrences 1%Z (take (S j) results))))
                 (float_of_int (Z.of_nat (S j)))).
Proof.
  unfold plot_cumulative_win_rate.
  change (win_rate_loop results 0 0 [])
    with (win_rate_loop results (Z.of_nat 0) (Z.of_nat 0) []).
  rewrite win_rate_loop_closed. eexists. split; [done|].
  split.
  - by rewrite length_app, length_map, length_seq.
  - intros j Hj. cbn [app]. rewrite list_lookup_fmap, lookup_seq_lt by done.
    done.
Qed.

(** ** What is predicted *)

Lemma elem_of_last_entries {A} (n : nat) (l : list A) (x : A) :
  x ∈ last_entries n l → x ∈ l.
Proof. apply subseteq_drop. Qed.

(** The entries of the cache after a call are the ones before it and the
    prediction. *)
Lemma pattern_prediction_cache_values (self self' : PatternDetector)
    (p : option Move) (key : string) (v : Move) :
  get_pattern_prediction self = Ok (p, self') →
  pattern_cache self' !! key = Some v →
  pattern_cache self !! key = Some v ∨ p = Some v.
Proof.
  unfold get_pattern_prediction.
  destruct (_ <? _)%Z; [intros [= _ <-]; auto|].
  destruct (pattern_cache self !! _) as [c|] eqn:Hkey;
    [intros [= _ <-]; auto|].
  destruct (for_each _ _ _) as [[|x occ]|e]; simpl;
    [intros [= _ <-]; auto| |done].
  destruct (most_common_key _) as [m|]; simpl; [|done].
  intros [= <- <-]. simpl. rewrite lookup_insert.
  case_decide; [intros [= ->]; auto | auto].
Qed.

(** A prediction of the pattern match is cached or in the window. *)
Lemma pattern_prediction_source (self self' : PatternDetector) (p : Move) :
  (0 < window_size self)%Z →
  get_pattern_prediction self = Ok (Some p, self') →
  (∃ key, pattern_cache self !! key = Some p) ∨ p ∈ move_history self.
Proof.
  intros Hw. rewrite get_pattern_prediction_eq by done.
  destruct (_ <? _); [done|].
  destruct (pattern_cache self !! _) as [c|] eqn:Hkey;
    [intros [= <- _]; eauto|].
  destruct (followers _ _) as [|x occ] eqn:Hocc; [done|].
  destruct (most_common_key_spec (x :: occ)) as (m & -> & Hin & _); [done|].
  intros [= <- _]. right. rewrite <- Hocc in Hin.
  apply elem_of_followers in Hin as (i & _ & Hi).
  by eapply list_elem_of_lookup_2.
Qed.

(** In a game as it can be, the move [get_ai_move] returns in a round is a
    counter to a move the opponent has played, this round's included. *)
Lemma predicted_move_played (w w1 w3 : World) (opponent_move ai_move : Move) :
  game_invariant (game w) → cache_sound (game w) → game w1 = game w →
  get_ai_move (at_prediction opponent_move w1) = Ok (ai_move, w3) →
  ∃ p, p ∈ opponent_history (state (game w)) ++ [opponent_move] ∧
       ai_move ∈ possible_counters p ∧ get_result ai_move p = 1%Z.
Proof.
  intros (Hw & Hthr & Hmh & Hcache & _) Hsound Hgame.
  set (w2 := at_prediction opponent_move w1).
  set (d2 := pattern_detector (game w2)).
  set (played := opponent_history (state (game w)) ++ [opponent_move]).
  assert (d2 = add_move opponent_move (pattern_detector (game w))) as Hd2
    by (unfold d2, w2; simpl; by rewrite Hgame).
  assert (move_history d2 = last_entries 50 played) as Hwindow.
  { rewrite Hd2. simpl. by rewrite Hmh, deque_append_last_entries. }
  assert (∀ p d, p ∈ played →
                 get_counter_move p (set_detector d w2) = Ok (ai_move, w3) →
                 ∃ p, p ∈ played ∧ ai_move ∈ possible_counters p ∧
                      get_result ai_move p = 1%Z) as Hcounter.
  { intros p d Hp Hm. destruct (get_counter_move_spec p (set_detector d w2))
      as (c & Hc & Hin & Hwin). rewrite Hc in Hm. injection Hm as <- _. eauto. }
  rewrite get_ai_move_chain. fold d2.
  destruct (get_pattern_prediction d2) as [[[p|] d]|e] eqn:Hp; [| |done].
  - apply Hcounter.
    apply pattern_prediction_source in Hp as [[key Hkey]|Hin];
      [| |rewrite Hd2; simpl; by rewrite Hw].
    + rewrite Hd2 in Hkey. apply Hsound in Hkey.
      apply elem_of_app. by left.
    + rewrite Hwindow in Hin. by apply elem_of_last_entries in Hin.
  - apply get_pattern_prediction_none in Hp as ->.
    rewrite get_frequency_bias_find.
    destruct (find _ _) as [f|] eqn:Hfind.
    + apply Hcounter. apply find_some in Hfind as [Hin _].
      rewrite <- list_elem_of_In, elem_of_first_seen, Hwindow in Hin.
      by apply elem_of_last_entries in Hin.
    + assert (opponent_history (state (game w2))
              = opponent_history (state (game w))) as ->
        by (unfold w2; simpl; by rewrite Hgame).
      destruct (opponent_history (state (game w))) as [|x h] eqn:Hh.
      * exfalso.
        assert (get_frequency_bias d2 = Ok (Some opponent_move)) as Hbias.
        { apply (frequency_bias_short_window d2 opponent_move []);
            [by rewrite Hd2 | by rewrite Hwindow | rewrite Hwindow; simpl; lia]. }
        rewrite get_frequency_bias_find, Hfind in Hbias. done.
      * rewrite (slice_last _ 5) by done.
        destruct (most_common_key_spec (last_entries (Z.to_nat 5) (x :: h)))
          as (m & -> & Hin & _).
        { intros Hnil%last_entries_nil; [done | simpl; lia]. }
        apply Hcounter. apply elem_of_last_entries in Hin.
        apply elem_of_app. by left.
Qed.

(** A round keeps the cache sound. *)
Lemma cache_sound_round (opponent_strategy : string)
    (custom_moves : option (list Move)) (round_number : Z) (w w' : World)
    (out : Move * Move * Z) :
  game_invariant (game w) → cache_sound (game w) →
  play_round opponent_strategy custom_moves round_number w = Ok (out, w') →
  cache_sound (game w').
Proof.
  intros (Hw & _ & Hmh & _) Hsound
         (ai & opp & w1 & w2 & _ & _ & Hgame & Hai & Hpd & _ & _ & Hoh)
           %play_round_inv.
  apply get_ai_move_draws in Hai as (_ & _ & p & Hp). simpl in Hp.
  rewrite Hgame, <- Hpd in Hp.
  intros key v Hv. rewrite Hoh.
  destruct (pattern_prediction_cache_values _ _ _ _ _ Hp Hv) as [Hold| ->].
  - apply elem_of_app. left. by apply (Hsound key).
  - apply pattern_prediction_source in Hp as [[key' Hkey]|Hin];
      [| |by simpl; rewrite Hw].
    + apply elem_of_app. left. by apply (Hsound key').
    + simpl in Hin. rewrite Hmh, deque_append_last_entries in Hin.
      by apply elem_of_last_entries in Hin.
Qed.

Lemma reachable_cache_sound (w : World) : reachable w → cache_sound (game w).
Proof.
  intros [r Hsteps]. revert w Hsteps.
  apply (rtc_ind_r (fun w => reachable w ∧ cache_sound (game w))
           (new_game r)).
  - split; [by exists r | by intros key v].
  - intros w0 w1 Hsteps Hstep [Hreach Hsound].
    split; [destruct Hreach as [r0 Hr0]; exists r0; by eapply rtc_r|].
    destruct Hstep as (r' & s & cm & rn & out & Hround).
    apply reachable_invariant in Hreach.
    by eapply cache_sound_round in Hround.
Qed.

(** The repeating opponent: its last move, or a draw from [MOVES] when it
    has none. *)
Lemma repeating_source_eq (custom_moves : option (list Move))
    (round_number : Z) (w : World) :
  opponent_move_source "repeating" custom_moves round_number w =
  match opponent_history (state (game w)) with
  | (_ :: _) as history => lift (getitem history (-1)) w
  | [] => random_choice MOVES w
  end.
Proof.
  unfold opponent_move_source.
  change (String.eqb "repeating" "random") with false.
  change (String.eqb "repeating" "repeating") with true. cbv iota.
  unfold mbind, M_bind, read. by destruct (opponent_history _).
Qed.

(** X18. The predictor wins every round against the repeating opponent:
    on a fresh game, for any number of rounds, the opponent's moves are all
    the move [m] drawn in the first round, every result is a win, and every
    move of the predictor beats [m]. *)
Theorem repeating_opponent_always_loses (n : nat)
    (custom_moves : option (list Move)) (r : RandomState) :
  ∃ m results w',
    MOVES !! (r 0 mod 5) = Some m ∧
    demonstrate_game (Z.of_nat n) "repeating" custom_moves r
    = Ok (results, w') ∧
    results = replicate n 1%Z ∧
    opponent_history (state (game w')) = replicate n m ∧
    Forall (fun ai_move => beats ai_move m) (player_history (state (game w'))).
Proof.
  destruct (random_choice_MOVES (new_game r)) as (m & Hm & Hfirst).
  destruct (demonstrate_game_inv (Z.of_nat n) "repeating" custom_moves r
              (fun k results w =>
                 results = replicate k 1%Z ∧ cache_sound (game w) ∧
                 (k = 0 → w = new_game r) ∧
                 opponent_history (state (game w)) = replicate k m ∧
                 Forall (fun ai_move => beats ai_move m)
                        (player_history (state (game w)))))
    as (results & w' & Hgame & _ & Hres & _ & _ & Hoh & Hph).
  - split_and!; [done | by intros key v | done | done | constructor].
  - intros k results w ai opp res w' Hinv (-> & Hsound & Hfresh & Hoh & Hph)
           Hround.
    pose proof (cache_sound_round _ _ _ _ _ _ Hinv Hsound Hround) as Hsound'.
    apply play_round_inv in Hround
      as (ai' & opp' & w1 & w2 & [= <- <- ->] & Hopp & Hgame & Hai & _ & _
          & Hph' & Hoh').
    assert (opp = m) as ->.
    { rewrite repeating_source_eq, Hoh in Hopp. destruct k as [|k].
      - rewrite (Hfresh eq_refl), Hfirst in Hopp. by injection Hopp as <- _.
      - rewrite replicate_S_end in Hopp.
        destruct (replicate k m ++ [m]) as [|x h] eqn:Hl;
          [by destruct (replicate k m)|].
        rewrite <- Hl, getitem_last in Hopp. by injection Hopp as <- _. }
    destruct (predicted_move_played w w1 w2 m ai Hinv Hsound Hgame Hai)
      as (p & Hp & _ & Hwin).
    assert (p = m) as ->.
    { rewrite Hoh in Hp.
      apply elem_of_app in Hp as [Hp%elem_of_replicate_inv
                                 |Hp%list_elem_of_singleton]; done. }
    rewrite Hwin, Hph', Hoh', Hoh. split_and!.
    + by rewrite replicate_S_end.
    + done.
    + done.
    + by rewrite replicate_S_end.
    + apply Forall_app. split; [done|].
      constructor; [by apply get_result_win | constructor].
  - rewrite Nat2Z.id in Hres, Hoh. by exists m, results, w'.
Qed.

(** X19. Throughout the lifetime of a game the detector keeps the default
    window size and threshold, the rolling window is the last 50 moves of
    the opponent, both histories have the same length, nothing is cached
    while the opponent has played 3 moves or fewer, and every cached
    prediction is a move the opponent has played. *)
Theorem game_lifetime_invariant (w : World) :
  reachable w →
  window_size (pattern_detector (game w)) = 3%Z ∧
  frequency_threshold (pattern_detector (game w))
  = default_frequency_threshold ∧
  move_history (pattern_detector (game w))
  = last_entries 50 (opponent_history (state (game w))) ∧
  length (move_history (pattern_detector (game w)))
  = 50 `min` length (opponent_history (state (game w))) ∧
  length (player_history (state (game w)))
  = length (opponent_history (state (game w))) ∧
  (length (opponent_history (state (game w))) ≤ 3 →
   pattern_cache (pattern_detector (game w)) = ∅) ∧
  (∀ key v, pattern_cache (pattern_detector (game w)) !! key = Some v →
            v ∈ opponent_history (state (game w))).
Proof.
  intros Hreach. pose proof (reachable_cache_sound w Hreach) as Hsound.
  apply reachable_invariant in Hreach as (Hw & Hthr & Hmh & Hcache & Hlen).
  split_and!; try done.
  - rewrite Hmh. apply last_entries_length_min.
  - intros Hshort. apply Hcache. rewrite Hmh, last_entries_length_min. lia.
Qed.

Lemma game_lifetime_invariant_witness :
  reachable five_repeating_rounds ∧
  pattern_cache (pattern_detector (game five_repeating_rounds))
  !! "rockrockrock"%string = Some rock ∧
  window_size (pattern_detector (game five_repeating_rounds)) = 3%Z ∧
  frequency_threshold (pattern_detector (game five_repeating_rounds))
  = default_frequency_threshold ∧
  move_history (pattern_detector (game five_repeating_rounds))
  = last_entries 50 (opponent_history (state (game five_repeating_rounds))) ∧
  length (move_history (pattern_detector (game five_repeating_rounds)))
  = 50 `min` length (opponent_history (state (game five_repeating_rounds))) ∧
  length (player_history (state (game five_repeating_rounds)))
  = length (opponent_history (state (game five_repeating_rounds))) ∧
  (length (opponent_history (state (game five_repeating_rounds))) ≤ 3 →
   pattern_cache (pattern_detector (game five_repeating_rounds)) = ∅) ∧
  (∀ key v,
     pattern_cache (pattern_detector (game five_repeating_rounds)) !! key
     = Some v →
     v ∈ opponent_history (state (game five_repeating_rounds))).
Proof.
  assert (reachable five_repeating_rounds) as Hreach.
  { apply (demonstrate_game_reachable 5 "repeating" None (fun _ => 0)
             [1; 1; 1; 1; 1]%Z).
    by vm_compute. }
  split_and!; [done | by vm_compute |..];
    apply (game_lifetime_invariant five_repeating_rounds Hreach).
Defined.

(** X20. In every round of a game's lifetime the predictor's move is a
    counter to a move the opponent has played, this round's included: it
    wins against that move, and so wins the round when that move is the one
    the opponent plays. *)
Theorem ai_counters_played_move (w w' : World) (r : RandomState)
    (opponent_strategy : string) (custom_moves : option (list Move))
    (round_number : Z) (ai_move opponent_move : Move) (res : Z) :
  reachable w →
  play_round opponent_strategy custom_moves round_number
             {| rng := r; game := game w |}
  = Ok (ai_move, opponent_move, res, w') →
  ∃ p, p ∈ opponent_history (state (game w')) ∧
       ai_move ∈ possible_counters p ∧
       get_result ai_move p = 1%Z ∧
       (p = opponent_move → res = 1%Z).
Proof.
  intros Hreach Hround.
  pose proof (reachable_cache_sound w Hreach) as Hsound.
  apply reachable_invariant in Hreach as Hinv.
  apply play_round_inv in Hround
    as (ai' & opp' & w1 & w2 & [= <- <- ->] & _ & Hgame & Hai & _ & _ & _
        & Hoh).
  destruct (predicted_move_played {| rng := r; game := game w |} w1 w2
              opponent_move ai_move Hinv Hsound Hgame Hai)
    as (p & Hp & Hin & Hwin).
  exists p. rewrite Hoh. split_and!; [done | done | done |].
  by intros ->.
Qed.

Lemma ai_counters_played_move_witness :
  reachable (new_game (fun n => n)) ∧
  ∃ p, p ∈ [rock] ∧ paper ∈ possible_counters p ∧
       get_result paper p = 1%Z ∧ (p = rock → 1%Z = 1%Z).
Proof.
  assert (reachable (new_game (fun n => n))) as Hreach
    by (exists (fun n => n); apply rtc_refl).
  split; [done|].
  apply (ai_counters_played_move (new_game (fun n => n))
           (set_state
              {| player_history := [paper]; opponent_history := [rock] |}
              (set_detector (add_move rock PatternDetector_default)
                 {| rng := advance (fun n => n); game := RPSLSGame_init |}))
           (fun n => n) "cycling" None 0 paper rock 1 Hreach).
  by vm_compute.
Defined.

(** ** The predictor against the cycling opponent *)

Lemma cycle_moves_segment (n : nat) : cycle_moves n = cycle_segment 0 n.
Proof. done. Qed.

Lemma length_cycle_segment (a n : nat) : length (cycle_segment a n) = n.
Proof. unfold cycle_segment. by rewrite length_map, length_seq. Qed.

Lemma drop_cycle_segment (a n d : nat) :
  drop d (cycle_segment a n) = cycle_segment (a + d) (n - d).
Proof. unfold cycle_segment. by rewrite <- fmap_drop, drop_seq. Qed.

Lemma take_cycle_segment (a n m : nat) :
  take m (cycle_segment a n) = cycle_segment a (m `min` n).
Proof. unfold cycle_segment. by rewrite <- fmap_take, take_seq. Qed.

Lemma lookup_cycle_segment (a n j : nat) :
  j < n → cycle_segment a n !! j = Some (nth ((a + j) mod 5) MOVES rock).
Proof.
  intros Hj. unfold cycle_segment.
  by rewrite list_lookup_fmap, lookup_seq_lt by done.
Qed.

Lemma cycle_segment_period (a n : nat) :
  cycle_segment (a + 5) n = cycle_segment a n.
Proof.
  unfold cycle_segment. rewrite (Nat.add_comm a 5), <- fmap_add_seq.
  rewrite <- list_fmap_compose. apply map_ext. intros k. unfold compose.
  f_equal. by rewrite <- (Nat.Div0.add_mod_idemp_l 5 k 5).
Qed.

Lemma last_entries_cycle_segment (a n m : nat) :
  last_entries m (cycle_segment a n) = cycle_segment (a + (n - m)) (m `min` n).
Proof.
  unfold last_entries. rewrite length_cycle_segment, drop_cycle_segment.
  f_equal. lia.
Qed.

Lemma nth_MOVES_inj (i j : nat) :
  i < 5 → j < 5 → nth i MOVES rock = nth j MOVES rock → i = j.
Proof.
  intros Hi Hj.
  do 5 (destruct i as [|i]; [by do 5 (destruct j as [|j]; [done|]); lia|]).
  lia.
Qed.

Lemma successor_nth (k : nat) :
  successor (nth (k mod 5) MOVES rock) = nth ((k + 1) mod 5) MOVES rock.
Proof.
  unfold successor.
  rewrite first_index_MOVES by (apply Nat.mod_upper_bound; lia).
  by rewrite Nat.Div0.add_mod_idemp_l.
Qed.

(** In a stretch of the cycle, what follows an earlier occurrence of the
    last three moves is the move after the last. *)
Lemma followers_cycle_segment (a n : nat) (x : Move) :
  3 ≤ n → x ∈ followers 3 (cycle_segment a n) →
  x = nth ((a + n) mod 5) MOVES rock.
Proof.
  intros Hn (i & Hocc & Hx)%elem_of_followers.
  pose proof (lookup_lt_Some _ _ _ Hx) as Hi.
  rewrite length_cycle_segment in Hi.
  rewrite lookup_cycle_segment in Hx by done. apply (inj Some) in Hx as <-.
  rewrite drop_cycle_segment, take_cycle_segment, last_entries_cycle_segment
    in Hocc.
  replace (3 `min` (n - i)) with 3 in Hocc by lia.
  replace (3 `min` n) with 3 in Hocc by lia.
  apply (f_equal (fun l => l !! 2)) in Hocc.
  rewrite !lookup_cycle_segment in Hocc by lia. apply (inj Some) in Hocc.
  apply nth_MOVES_inj in Hocc; [|apply Nat.mod_upper_bound; lia..].
  f_equal. replace (a + (i + 3)) with (a + i + 2 + 1) by lia.
  rewrite <- Nat.Div0.add_mod_idemp_l, Hocc, Nat.Div0.add_mod_idemp_l.
  f_equal. lia.
Qed.

(** From 8 moves on, the last three moves of a stretch of the cycle have
    occurred before. *)
Lemma followers_cycle_segment_nonempty (a n : nat) :
  8 ≤ n → followers 3 (cycle_segment a n) ≠ [].
Proof.
  intros Hn Hnil.
  assert (nth ((a + (n - 8 + 3)) mod 5) MOVES rock
          ∈ followers 3 (cycle_segment a n)) as Hin.
  { apply elem_of_followers. exists (n - 8). split.
    - rewrite drop_cycle_segment, take_cycle_segment,
        last_entries_cycle_segment.
      replace (3 `min` (n - (n - 8))) with 3 by lia.
      replace (3 `min` n) with 3 by lia.
      rewrite <- cycle_segment_period. f_equal. lia.
    - apply lookup_cycle_segment. lia. }
  rewrite Hnil in Hin. by apply elem_of_nil in Hin.
Qed.

(** The pattern match on a stretch of the cycle, with a cache of
    successors: it predicts nothing but the move after the last, it does
    predict from 8 moves on, and the cache stays one of successors. *)
Lemma pattern_prediction_cycle (self self' : PatternDetector)
    (p : option Move) (a n : nat) :
  window_size self = default_window_size →
  move_history self = cycle_segment a n →
  (∀ key v, pattern_cache self !! key = Some v →
            ∃ x y z, key = pattern_key_of [x; y; z] ∧ v = successor z) →
  get_pattern_prediction self = Ok (p, self') →
  (∀ key v, pattern_cache self' !! key = Some v →
            ∃ x y z, key = pattern_key_of [x; y; z] ∧ v = successor z) ∧
  (∀ v, p = Some v → v = nth ((a + n) mod 5) MOVES rock) ∧
  (8 ≤ n → p ≠ None).
Proof.
  intros Hw Hl Hcache. rewrite get_pattern_prediction_eq by (by rewrite Hw).
  rewrite Hw, Hl, length_cycle_segment.
  change (Z.to_nat default_window_size) with 3.
  destruct (Nat.ltb_spec n 3) as [Hlt|Hge].
  { intros [= <- <-]. split_and!; [done | done | lia]. }
  rewrite last_entries_cycle_segment. replace (3 `min` n) with 3 by lia.
  assert (cycle_segment (a + (n - 3)) 3
          = [nth ((a + (n - 3)) mod 5) MOVES rock;
             nth (S (a + (n - 3)) mod 5) MOVES rock;
             nth (S (S (a + (n - 3))) mod 5) MOVES rock]) as Hlast by done.
  assert (successor (nth (S (S (a + (n - 3))) mod 5) MOVES rock)
          = nth ((a + n) mod 5) MOVES rock) as Hsucc.
  { rewrite successor_nth. do 2 f_equal. lia. }
  destruct (pattern_cache self !! _) as [v|] eqn:Hkey.
  - intros [= <- <-]. split_and!; [done | | done].
    intros v' [= <-]. apply Hcache in Hkey as (x & y & z & Hxyz & ->).
    rewrite Hlast in Hxyz. apply pattern_key_of_inj in Hxyz.
    injection Hxyz as _ _ <-. done.
  - pose proof (followers_cycle_segment a n) as Hall.
    pose proof (followers_cycle_segment_nonempty a n) as Hsome.
    destruct (followers 3 (cycle_segment a n)) as [|f occ] eqn:Hocc.
    { intros [= <- <-]. split_and!; [done | done |].
      intros H8. by destruct (Hsome H8). }
    destruct (most_common_key_spec (f :: occ)) as (m & -> & Hin & _); [done|].
    apply Hall in Hin; [|done]. subst m.
    intros [= <- <-]. split_and!; [| by intros v [= <-] | done].
    intros key v. simpl. rewrite lookup_insert. case_decide as Hk.
    + intros [= <-]. subst key. rewrite Hlast. eexists _, _, _.
      split; [done|]. by rewrite Hsucc.
    + apply Hcache.
Qed.

(** A counter to the move after the opponent's move, against the
    opponent's move: a loss against [rock] and [paper], no win against
    [lizard], no loss against [scissors] and [spock]. *)
Lemma counter_of_successor (i : nat) (ai_move : Move) :
  i < 5 → ai_move ∈ possible_counters (nth ((i + 1) mod 5) MOVES rock) →
  (i < 2 → get_result ai_move (nth i MOVES rock) = (-1)%Z) ∧
  (i = 3 → get_result ai_move (nth i MOVES rock) ≠ 1%Z) ∧
  (i = 2 ∨ i = 4 → get_result ai_move (nth i MOVES rock) ≠ (-1)%Z).
Proof.
  intros Hi Hin.
  do 5 (destruct i as [|i];
        [vm_compute in Hin;
         repeat (apply elem_of_cons in Hin as [->|Hin];
                 [split_and!; intros; (done || lia)|]);
         by apply elem_of_nil in Hin|]).
  lia.
Qed.

(** X21. Against the cycling opponent the pattern match predicts the move
    after the one the opponent is playing, because the window already holds
    that move. On a fresh game, in every round from the eighth on, the
    predictor plays a counter to the next move of the cycle: it loses every
    round in which the opponent plays rock or paper, never wins against
    lizard, and never loses against scissors or spock. *)
Theorem cycling_opponent_steady_state (n : nat)
    (custom_moves : option (list Move)) (r : RandomState) :
  ∃ results w',
    demonstrate_game (Z.of_nat n) "cycling" custom_moves r
    = Ok (results, w') ∧
    ∀ k, 7 ≤ k < n →
         ∃ ai_move res,
           player_history (state (game w')) !! k = Some ai_move ∧
           opponent_history (state (game w')) !! k
           = Some (nth (k mod 5) MOVES rock) ∧
           results !! k = Some res ∧
           res = get_result ai_move (nth (k mod 5) MOVES rock) ∧
           ai_move ∈ possible_counters (nth ((k + 1) mod 5) MOVES rock) ∧
           (k mod 5 < 2 → res = (-1)%Z) ∧
           (k mod 5 = 3 → res ≠ 1%Z) ∧
           (k mod 5 = 2 ∨ k mod 5 = 4 → res ≠ (-1)%Z).
Proof.
  destruct (demonstrate_game_inv (Z.of_nat n) "cycling" custom_moves r
              (fun k results w =>
                 opponent_history (state (game w)) = cycle_moves k ∧
                 cache_successors (game w) ∧
                 length results = k ∧
                 ∀ j, 7 ≤ j < k →
                      ∃ ai_move,
                        player_history (state (game w)) !! j = Some ai_move ∧
                        ai_move ∈ possible_counters
                                    (nth ((j + 1) mod 5) MOVES rock) ∧
                        results !! j
                        = Some (get_result ai_move
                                  (nth (j mod 5) MOVES rock))))
    as (results & w' & Hgame & _ & Hoh & _ & _ & Hrounds).
  - split_and!; [done | by intros key v | done | intros j; lia].
  - intros k results w ai opp res w'
           (Hw & Hthr & Hmh & _ & Hphlen) (Hoh & Hsucc & Hlen & Hprev) Hround.
    apply play_round_inv in Hround
      as (ai' & opp' & w1 & w2 & [= <- <- ->] & Hopp & Hgame & Hai & Hpd & _
          & Hph' & Hoh').
    rewrite cycling_move, Hoh, cycle_position_cycle_moves in Hopp.
    assert (nth (k mod 5) MOVES rock = opp ∧ w = w1) as [<- <-]
      by (by injection Hopp).
    set (opp := nth (k mod 5) MOVES rock) in *.
    set (d2 := pattern_detector (game (at_prediction opp w))) in *.
    assert (move_history d2 = cycle_segment (0 + (S k - 50)) (50 `min` S k))
      as Hl2.
    { unfold d2. simpl. rewrite Hmh, deque_append_last_entries, Hoh.
      rewrite <- cycle_moves_S, cycle_moves_segment.
      apply last_entries_cycle_segment. }
    assert (length (player_history (state (game w))) = k) as Hphk.
    { rewrite Hphlen, Hoh, cycle_moves_segment. apply length_cycle_segment. }
    pose proof Hai as (_ & _ & p & Hp)%get_ai_move_draws. fold d2 in Hp.
    destruct (pattern_prediction_cycle d2 _ p _ _ Hw Hl2 Hsucc Hp)
      as (Hsucc2 & Hpred & Hsome).
    split_and!.
    + by rewrite Hoh', Hoh, cycle_moves_S.
    + unfold cache_successors. by rewrite Hpd.
    + rewrite length_app. simpl. lia.
    + intros j Hj. destruct (decide (j < k)) as [Hjk|Hjk].
      * destruct (Hprev j) as (a & Ha & Hin & Hres); [lia|].
        exists a. rewrite Hph', !lookup_app_l by lia. done.
      * assert (j = k) as -> by lia. exists ai.
        rewrite Hph'. rewrite <- Hphk at 1. rewrite list_lookup_middle by done.
        rewrite <- Hlen at 2. rewrite list_lookup_middle by done.
        split_and!; [done | | done].
        destruct p as [v|]; [|by destruct Hsome; [lia|]].
        rewrite (Hpred v eq_refl) in Hp.
        replace (0 + (S k - 50) + 50 `min` S k) with (k + 1) in Hp by lia.
        rewrite get_ai_move_chain in Hai. fold d2 in Hai. rewrite Hp in Hai.
        destruct (get_counter_move_spec (nth ((k + 1) mod 5) MOVES rock)
                    (set_detector (pattern_detector (game w2))
                       (at_prediction opp w))) as (c & Hc & Hin & _).
        rewrite Hc in Hai. by injection Hai as <- _.
  - rewrite Nat2Z.id in Hoh, Hrounds. exists results, w'. split; [done|].
    intros k Hk. destruct (Hrounds k Hk) as (ai & Hai & Hin & Hres).
    exists ai, (get_result ai (nth (k mod 5) MOVES rock)).
    assert (k mod 5 < 5) as Hmod by (apply Nat.mod_upper_bound; lia).
    destruct (counter_of_successor (k mod 5) ai Hmod) as (Hloss & Hnowin & Hnoloss).
    { by rewrite Nat.Div0.add_mod_idemp_l. }
    split_and!; try done.
    rewrite Hoh, cycle_moves_segment. by rewrite lookup_cycle_segment by lia.
Qed.
